(** * The gatsby-cli reporter (packages/gatsby-cli/src/reporter/index.js)

    A shallow embedding of the reporter facade: the error normalizer
    [reporter.error], the panic entry points, the colour and verbosity
    switches, and the two activity trackers ([activityTimer] and
    [createProgress]).

    The reporter is glue code: almost every line is a call into a
    collaborator.  Collaborators with state (the rendering backend's
    activities, the tracer's spans, the error formatter's colour mode) are
    components of the [world]; collaborators that only consume output (the
    log verbs, the telemetry client) are recorded, call by call, in the
    world's [trace].  Reporter methods are computations in a small
    state-and-outcome monad over the world: a call returns, throws, or ends
    the process.  Methods are called on the reporter ([reporter.error(...)]),
    so that [this] is the reporter. *)

From Stdlib Require Import ZArith QArith Qround Qpower Qreduction.
From Stdlib Require Import Ascii String List Lia Lqa.
From stdpp Require Import base list.
Import ListNotations.

Local Open Scope string_scope.
Local Open Scope list_scope.
Local Open Scope Z_scope.

(** ** JavaScript values reaching the reporter

    [undefined], [null], booleans, strings, [Error] instances, arrays and
    plain objects.  An [Error] is one made by [new Error(message)]: its name
    is ["Error"].  An array is dense.  A plain object is what an object
    literal or [JSON.parse] makes: its prototype is [Object.prototype] and
    its own properties are enumerable data properties under string keys,
    holding values of this model -- so no property holds a function.
    Symbols, functions, accessors and numbers as arguments of [error] are
    outside this model. *)

#[local] Unset Elimination Schemes.
Inductive value : Type :=
| VUndefined
| VNull
| VBool (b : bool)
| VStr (s : string)
| VError (message : string)
| VArr (items : list value)
| VObj (props : list (string * value)).
#[local] Set Elimination Schemes.

(** A plain object: its own properties, in insertion order. *)
Definition obj : Type := list (string * value).

(** Induction over values that descends into array elements (the only
    recursion the reporter performs). *)
Section ValueInd.
Variable P : value -> Prop.
Hypothesis Hundef : P VUndefined.
Hypothesis Hnull : P VNull.
Hypothesis Hbool : forall b, P (VBool b).
Hypothesis Hstr : forall s, P (VStr s).
Hypothesis Herror : forall m, P (VError m).
Hypothesis Harr : forall items, Forall P items -> P (VArr items).
Hypothesis Hobj : forall props, P (VObj props).

Fixpoint value_arr_ind (v : value) : P v :=
  match v with
  | VUndefined => Hundef
  | VNull => Hnull
  | VBool b => Hbool b
  | VStr s => Hstr s
  | VError m => Herror m
  | VArr items =>
      Harr items
        ((fix go (l : list value) : Forall P l :=
            match l with
            | [] => @List.Forall_nil value P
            | x :: r => @List.Forall_cons value P x r (value_arr_ind x) (go r)
            end) items)
  | VObj props => Hobj props
  end.
End ValueInd.

(** [obj[key]] on an association list: the first binding of the key. *)
Fixpoint lookup_prop (key : string) (props : obj) : value :=
  match props with
  | [] => VUndefined
  | (k, v) :: rest => if String.eqb k key then v else lookup_prop key rest
  end.

(** [Object.prototype.hasOwnProperty]. *)
Definition has_own (key : string) (props : obj) : bool :=
  existsb (fun binding => String.eqb (fst binding) key) props.

(** ToBoolean. *)
Definition truthy (v : value) : bool :=
  match v with
  | VUndefined | VNull => false
  | VBool b => b
  | VStr s => negb (String.eqb s "")
  | VError _ | VArr _ | VObj _ => true
  end.

(** [Array.prototype.join] with separator [","] over already converted
    elements. *)
Fixpoint join_comma (parts : list string) : string :=
  match parts with
  | [] => ""
  | [p] => p
  | p :: rest => p ++ "," ++ join_comma rest
  end.

(** The string the [+] operator makes of an operand when the other operand
    is a string: ToPrimitive, then ToString.  [None] is the TypeError
    "Cannot convert object to primitive value".

    A primitive prints as itself.  An object is asked for [valueOf] and
    [toString]: the inherited [valueOf] answers with the object itself, so
    the string comes from [toString].  [Error.prototype.toString] prints the
    name alone when the message is empty.  [Array.prototype.toString] joins
    the elements, [null] and [undefined] elements as the empty string, the
    others converted in turn.  A plain object inherits
    [Object.prototype.toString] unless it has an own property [toString];
    that one holds no function, is skipped, and no conversion is left. *)
Fixpoint toStr (v : value) : option string :=
  match v with
  | VUndefined => Some "undefined"
  | VNull => Some "null"
  | VBool true => Some "true"
  | VBool false => Some "false"
  | VStr s => Some s
  | VError m =>
      Some (if String.eqb m "" then "Error" else "Error: " ++ m)%string
  | VArr items =>
      option_map join_comma
        ((fix elements (l : list value) : option (list string) :=
            match l with
            | [] => Some []
            | x :: rest =>
                match match x with
                      | VUndefined | VNull => Some ""
                      | _ => toStr x
                      end, elements rest with
                | Some s, Some ss => Some (s :: ss)
                | _, _ => None
                end
            end) items)
  | VObj props =>
      if has_own "toString" props then None else Some "[object Object]"
  end.

Definition instanceof_Error (v : value) : bool :=
  match v with VError _ => true | _ => false end.

Definition Array_isArray (v : value) : bool :=
  match v with VArr _ => true | _ => false end.

(** The [typeof] operator. *)
Definition typeof (v : value) : string :=
  match v with
  | VUndefined => "undefined"
  | VBool _ => "boolean"
  | VStr _ => "string"
  | VNull | VError _ | VArr _ | VObj _ => "object"
  end.

(** The own properties of [Object.assign({}, source)] for the sources that
    reach it: an object, or [null] (written [None]), which is skipped.  The
    properties of an object are assigned one by one to the fresh object;
    assigning under the key [__proto__] runs the setter inherited from
    [Object.prototype], which makes no own property.  (The prototype that
    setter installs is not tracked.) *)
Definition Object_assign_empty (source : option obj) : obj :=
  match source with
  | Some props =>
      List.filter (fun binding => negb (String.eqb (fst binding) "__proto__"))
        props
  | None => []
  end.

(** ** Numbers

    A JavaScript number is an IEEE 754 double.  [to_double x] is the double
    nearest to the rational [x]: [x] is scaled to a significand of 53 bits,
    which is rounded to the nearest integer, a tie going to the even one.
    The exponent is not limited: overflow to [Infinity] (from [2^1024] on)
    and subnormal numbers (below [2^-1022]) are not modelled, and wherever a
    statement below gives the value of a count or of a duration, it bounds
    the numbers involved. *)

Definition pow2 (e : Z) : Q := (2 ^ e)%Q.

(** The nearest integer, a tie going to the even one. *)
Definition round_half_even (q : Q) : Z :=
  let f := Qfloor q in
  match (q - inject_Z f ?= 1 # 2)%Q with
  | Lt => f
  | Gt => f + 1
  | Eq => if Z.even f then f else f + 1
  end.

(** For [0 < x]: the [e] with [2^e <= x < 2^(e+1)]. *)
Definition exponent (x : Q) : Z :=
  let lg := Z.log2 (Qnum x) - Z.log2 (Z.pos (Qden x)) in
  if Qle_bool (pow2 lg) x then lg else lg - 1.

Definition round_positive (x : Q) : Q :=
  let e := exponent x - 52 in
  (inject_Z (round_half_even (x * pow2 (- e))) * pow2 e)%Q.

Definition to_double (x : Q) : Q :=
  let y := Qred x in
  match (y ?= 0)%Q with
  | Eq => 0%Q
  | Gt => round_positive y
  | Lt => (- round_positive (- y))%Q
  end.

(** The result of an operation on integer-valued doubles whose exact result
    is the integer [n]: the double nearest to [n], again an integer. *)
Definition double_of_Z (n : Z) : Z := Qfloor (to_double (inject_Z n)).

(** [++current] on a number. *)
Definition js_increment (current : Z) : Z := double_of_Z (current + 1).

(** [Math.round]: the nearest integer, halves going up. *)
Definition Math_round (x : Q) : Z := Qfloor (x + (1 # 2))%Q.

(** ** Time

    [process.hrtime()] is a pair [[seconds, nanoseconds]] of integer-valued
    numbers. *)

Definition hrtime : Type := (Z * Z)%type.

(** [process.hrtime(previous)] for a [previous] reading: the difference,
    with a borrow when the nanosecond part would be negative. *)
Definition hrtime_diff (current previous : hrtime) : hrtime :=
  let sec := double_of_Z (fst current - fst previous) in
  let nsec := double_of_Z (snd current - snd previous) in
  if nsec <? 0
  then (double_of_Z (sec - 1), double_of_Z (nsec + 1000000000))
  else (sec, nsec).

(** convert-hrtime: [nanoseconds = hrtime[0] * 1e9 + hrtime[1]] and
    [milliseconds = nanoseconds / 1e6], each operation on doubles. *)
Definition convertHrtime_nanoseconds (t : hrtime) : Q :=
  to_double (to_double (inject_Z (fst t) * 1000000000) + inject_Z (snd t))%Q.

Definition convertHrtime_milliseconds (t : hrtime) : Q :=
  to_double (convertHrtime_nanoseconds t / 1000000)%Q.

(** ** Collaborators' data *)

Inductive activity_kind : Type := spinner | progress.

(** What the rendering backend holds for one activity (the spec's Activity;
    a field an update never set is [None]). *)
Record Activity : Type := mkActivity {
  act_id : string;
  act_kind : activity_kind;
  act_status : option string;
  act_startTime : option hrtime;
  act_current : option Z;
  act_total : option Z;
  act_done : bool
}.

(** The one-field objects passed to [activity.update]. *)
Inductive partial : Type :=
| PStartTime (t : hrtime)
| PStatus (status : string)
| PCurrent (current : Z)
| PTotal (total : Z).

(** A tracing span: its name, its parent, and how often [finish()] ran. *)
Record Span : Type := mkSpan {
  span_name : string;
  span_childOf : option nat;
  span_finished : nat
}.

Inductive verb : Type := Success | Verbose | Info | Warn | Log.

(** Calls into collaborators that only consume output. *)
Inductive event : Type :=
| SetVerbose (isVerbose : bool)
| SetColors (flag : bool)
| WithoutColors
| SetStage (stage : string)
| ReportError (structuredError : value)
| Rendered (error : value) (text : string)
| Print (v : verb) (text : string)
| TrackError (kind : string) (error : value)
| TrackCli (kind : string) (name : string) (duration : Z).

Record world : Type := mkWorld {
  now : hrtime;
  command : option string;
  uptime_ms : string;
  colorless : bool;
  activities : list Activity;
  spans : list Span;
  trace : list event
}.

Definition set_now (t : hrtime) (w : world) : world :=
  mkWorld t (command w) (uptime_ms w) (colorless w) (activities w) (spans w)
    (trace w).

Definition set_command (c : option string) (w : world) : world :=
  mkWorld (now w) c (uptime_ms w) (colorless w) (activities w) (spans w)
    (trace w).

Definition set_uptime_ms (u : string) (w : world) : world :=
  mkWorld (now w) (command w) u (colorless w) (activities w) (spans w)
    (trace w).

Definition set_colorless (b : bool) (w : world) : world :=
  mkWorld (now w) (command w) (uptime_ms w) b (activities w) (spans w)
    (trace w).

Definition set_activities (l : list Activity) (w : world) : world :=
  mkWorld (now w) (command w) (uptime_ms w) (colorless w) l (spans w)
    (trace w).

Definition set_spans (l : list Span) (w : world) : world :=
  mkWorld (now w) (command w) (uptime_ms w) (colorless w) (activities w) l
    (trace w).

Definition emit (e : event) (w : world) : world :=
  mkWorld (now w) (command w) (uptime_ms w) (colorless w) (activities w)
    (spans w) (trace w ++ [e]).

(** ** Computations *)

Inductive exn : Type := TypeError (about : string).

(** How a call ends: it returns, an exception propagates to the caller, or
    [process.exit] ended the process. *)
Inductive outcome (A : Type) : Type :=
| Ret (a : A)
| Throw (e : exn)
| Exit (code : Z).

Arguments Ret {A} a.
Arguments Throw {A} e.
Arguments Exit {A} code.

Definition M (A : Type) : Type := world -> outcome A * world.

Definition ret {A} (a : A) : M A := fun w => (Ret a, w).

Definition bind {A B} (m : M A) (k : A -> M B) : M B :=
  fun w =>
    match m w with
    | (Ret a, w') => k a w'
    | (Throw e, w') => (Throw e, w')
    | (Exit c, w') => (Exit c, w')
    end.

Definition throw {A} (e : exn) : M A := fun w => (Throw e, w).

Definition modify (f : world -> world) : M unit := fun w => (Ret tt, f w).

Definition gets {A} (f : world -> A) : M A := fun w => (Ret (f w), w).

Declare Scope js_scope.
Delimit Scope js_scope with js.
Notation "x <- m ;; k" := (bind m (fun x => k))
  (at level 100, m at next level, right associativity) : js_scope.
Notation "m ;; k" := (bind m (fun _ => k))
  (at level 100, right associativity) : js_scope.
Local Open Scope js_scope.

(** [Array.prototype.map] with an effectful callback: elements in order, an
    exception in one call abandons the rest. *)
Section MapM.
Context {A B : Type}.
Variable f : A -> M B.

Fixpoint mapM (l : list A) : M (list B) :=
  match l with
  | [] => ret []
  | x :: rest =>
      y <- f x ;;
      ys <- mapM rest ;;
      ret (y :: ys)
  end.
End MapM.

(** Reading a property: a [TypeError] on [undefined] and [null]; an [Error]
    carries [message]; strings, booleans and arrays have none of the
    properties read here ([message], [error]). *)
Definition get_prop (v : value) (key : string) : M value :=
  match v with
  | VUndefined | VNull =>
      throw (TypeError ("Cannot read property '" ++ key ++ "'"))
  | VError m => ret (if String.eqb key "message" then VStr m else VUndefined)
  | VObj props => ret (lookup_prop key props)
  | VBool _ | VStr _ | VArr _ => ret VUndefined
  end.

(** An operand of [+] next to a string. *)
Definition ToString (v : value) : M string :=
  match toStr v with
  | Some s => ret s
  | None => throw (TypeError "Cannot convert object to primitive value")
  end.

(** *** process *)

Definition process_exit {A} (code : Z) : M A := fun w => (Exit code, w).

(** [process.hrtime(time)]: without an argument the current reading; with a
    previous reading the difference; any other argument -- here the number
    [0], the tracker's initial [startTime], written [Some None] -- is
    rejected with a [TypeError]. *)
Definition process_hrtime (time : option (option hrtime)) : M hrtime :=
  match time with
  | None => gets now
  | Some (Some previous) => t <- gets now ;; ret (hrtime_diff t previous)
  | Some None => throw (TypeError "The time argument must be an Array")
  end.

(** *** Output and telemetry collaborators *)

Definition reporterInstance_setVerbose (b : bool) : M unit :=
  modify (emit (SetVerbose b)).
Definition reporterInstance_setColors (b : bool) : M unit :=
  modify (emit (SetColors b)).
Definition reporterInstance_error (structuredError : value) : M unit :=
  modify (emit (ReportError structuredError)).
Definition reporterInstance_print (v : verb) (text : string) : M unit :=
  modify (emit (Print v text)).
Definition reporterInstance_setStage (stage : string) : M unit :=
  modify (emit (SetStage stage)).
Definition trackError (kind : string) (error : value) : M unit :=
  modify (emit (TrackError kind error)).
Definition trackCli (kind name : string) (duration : Z) : M unit :=
  modify (emit (TrackCli kind name duration)).

(** *** Tracer: [startSpan] hands out the next span, [finish] counts. *)

Definition tracer_startSpan (name : string) (childOf : option nat) : M nat :=
  fun w => (Ret (length (spans w)),
            set_spans (spans w ++ [mkSpan name childOf 0]) w).

Definition finish_span (s : Span) : Span :=
  mkSpan (span_name s) (span_childOf s) (S (span_finished s)).

Definition span_finish (span : nat) : M unit :=
  modify (fun w => set_spans (alter finish_span span (spans w)) w).

(** *** Rendering backend: activities *)

(** Modelled from the spec: the rendering backend (./reporters), whose code
    is not at hand.  Its interface is
    [createActivity({type, id, status|current/total})
    -> {update(partial), done()}]: it keeps one Activity per call of
    [createActivity] and answers with a handle on it. *)
Definition reporterInstance_createActivity (a : Activity) : M nat :=
  fun w => (Ret (length (activities w)),
            set_activities (activities w ++ [a]) w).

(** [update(partial)] overwrites the field it is given. *)
Definition apply_partial (p : partial) (a : Activity) : Activity :=
  match p with
  | PStartTime t =>
      mkActivity (act_id a) (act_kind a) (act_status a) (Some t)
        (act_current a) (act_total a) (act_done a)
  | PStatus s =>
      mkActivity (act_id a) (act_kind a) (Some s) (act_startTime a)
        (act_current a) (act_total a) (act_done a)
  | PCurrent c =>
      mkActivity (act_id a) (act_kind a) (act_status a) (act_startTime a)
        (Some c) (act_total a) (act_done a)
  | PTotal t =>
      mkActivity (act_id a) (act_kind a) (act_status a) (act_startTime a)
        (act_current a) (Some t) (act_done a)
  end.

(** [done()] marks the activity done. *)
Definition mark_done (a : Activity) : Activity :=
  mkActivity (act_id a) (act_kind a) (act_status a) (act_startTime a)
    (act_current a) (act_total a) true.

(** Modelled from the spec: [update] of an activity handle of the rendering
    backend (./reporters, code not at hand). *)
Definition activity_update (activity : nat) (p : partial) : M unit :=
  modify (fun w =>
            set_activities (alter (apply_partial p) activity (activities w)) w).

(** Modelled from the spec: [done] of an activity handle of the rendering
    backend (./reporters, code not at hand). *)
Definition activity_done (activity : nat) : M unit :=
  modify (fun w => set_activities (alter mark_done activity (activities w)) w).

(** *** Error formatter and [constructError] *)

(** The two functions of this repository that the reporter calls for their
    results and that are not part of index.js: [constructError] of
    ../structured-errors/construct-error, applied to the [details] object,
    and the text the error formatter renders for an error in colourless
    ([true]) or coloured ([false]) mode.  Both are taken to return, and to do
    nothing else that the reporter could observe.
    [reporterInstance_has_setStage] tells whether the backend defines the
    optional [setStage]. *)
Class Collaborators : Type := {
  constructError : obj -> value;
  errorFormatter_text : bool -> value -> string;
  reporterInstance_has_setStage : bool
}.

(** Modelled from the spec: the error formatter ([getErrorFormatter()] of
    ./errors), whose code is not at hand.  Its interface is
    [render(nativeError) -> string] and [withoutColors()]: [withoutColors]
    switches the formatter to its colourless mode, and nothing in the
    interface switches it back. *)
Definition errorFormatter_withoutColors : M unit :=
  modify (fun w => emit WithoutColors (set_colorless true w)).

(** Modelled from the spec: [render] of the error formatter (./errors, code
    not at hand) prints the error in the mode the formatter is in. *)
Definition errorFormatter_render `{Collaborators} (error : value) : M string :=
  fun w =>
    let text := errorFormatter_text (colorless w) error in
    (Ret text, emit (Rendered error text) w).

(** ** The reporter *)

Section Reporter.
Context {collaborators : Collaborators}.

(** [setVerbose: (isVerbose = true) => reporterInstance.setVerbose(isVerbose)] *)
Definition setVerbose (isVerbose : option bool) : M unit :=
  reporterInstance_setVerbose (default true isVerbose).

(** [setNoColor(isNoColor = false)] *)
Definition setNoColor (isNoColor : option bool) : M unit :=
  let isNoColor := default false isNoColor in
  reporterInstance_setColors isNoColor ;;
  if isNoColor then errorFormatter_withoutColors else ret tt.

(** [log: reporterInstance.log] and the other verbs. *)
Definition log (text : string) : M unit := reporterInstance_print Log text.

(** The tail of [error], from [constructError({ details })] on. *)
Definition report_details (details : obj) : M value :=
  let structuredError := constructError details in
  (if truthy structuredError
   then reporterInstance_error structuredError
   else ret tt) ;;
  native <- get_prop structuredError "error" ;;
  (if truthy native
   then text <- errorFormatter_render native ;; log text
   else ret tt) ;;
  ret structuredError.

(** [error(errorMeta, error)] called with two arguments.  In
    [errorMeta + ` ` + error.message] the left operand is converted first,
    then [error.message] is read, then the message is converted. *)
Fixpoint error2 (errorMeta error : value) {struct error} : M value :=
  match error with
  | VArr items =>
      results <- mapM (error2 errorMeta) items ;;
      ret (VArr results)
  | _ =>
      prefix <- ToString errorMeta ;;
      message <- get_prop error "message" ;;
      text <- ToString message ;;
      report_details
        [("error", error);
         ("context", VObj [("sourceMessage", VStr ((prefix ++ " ") ++ text))])]
  end.

(** [error(errorMeta)] called with one argument: an [Error], an array, an
    object ([typeof null] is ["object"] too), a string, anything else. *)
Fixpoint error1 (errorMeta : value) : M value :=
  match errorMeta with
  | VError message =>
      report_details
        [("error", errorMeta);
         ("context", VObj [("sourceMessage", VStr message)])]
  | VArr items =>
      results <- mapM error1 items ;;
      ret (VArr results)
  | VObj props => report_details (Object_assign_empty (Some props))
  | VNull => report_details (Object_assign_empty None)
  | VStr s => report_details [("context", VObj [("sourceMessage", VStr s)])]
  | VUndefined | VBool _ => report_details []
  end.

(** [error(...)]: the dispatch on [arguments.length]. *)
Definition error (args : list value) : M value :=
  match args with
  | [errorMeta; error] => error2 errorMeta error
  | [errorMeta] => error1 errorMeta
  | _ => report_details []
  end.

(** [panic(...args)] *)
Definition panic (args : list value) : M unit :=
  err <- error args ;;
  trackError "GENERAL_PANIC" err ;;
  process_exit 1.

(** [panicOnBuild(...args)] *)
Definition panicOnBuild (args : list value) : M unit :=
  err <- error args ;;
  trackError "BUILD_PANIC" err ;;
  executing <- gets command ;;
  match executing with
  | Some c => if String.eqb c "build" then process_exit 1 else ret tt
  | None => ret tt
  end.

(** [uptime(prefix)]; the world supplies
    [(process.uptime() * 1000).toFixed(3)]. *)
Definition uptime (prefix : string) : M unit :=
  ms <- gets uptime_ms ;;
  reporterInstance_print Verbose (prefix ++ ": " ++ ms ++ "ms").

(** [_setStage(stage)] *)
Definition _setStage (stage : string) : M unit :=
  if reporterInstance_has_setStage
  then reporterInstance_setStage stage
  else ret tt.

(** *** Spinner activities *)

(** The variables the closures of [activityTimer] share; [startTime] is
    [None] while it still holds the initial number [0]. *)
Record SpinnerTracker : Type := mkSpinnerTracker {
  sp_name : string;
  sp_span : nat;
  sp_activity : nat;
  sp_startTime : option hrtime
}.

Definition activityTimer (name : string) (parentSpan : option nat)
  : M SpinnerTracker :=
  span <- tracer_startSpan name parentSpan ;;
  activity <- reporterInstance_createActivity
                (mkActivity name spinner (Some "") None None None false) ;;
  ret (mkSpinnerTracker name span activity None).

Definition spinner_start (t : SpinnerTracker) : M SpinnerTracker :=
  startTime <- process_hrtime None ;;
  activity_update (sp_activity t) (PStartTime startTime) ;;
  ret (mkSpinnerTracker (sp_name t) (sp_span t) (sp_activity t)
         (Some startTime)).

Definition spinner_setStatus (t : SpinnerTracker) (status : string) : M unit :=
  activity_update (sp_activity t) (PStatus status).

Definition spinner_end (t : SpinnerTracker) : M unit :=
  elapsed <- process_hrtime (Some (sp_startTime t)) ;;
  trackCli "ACTIVITY_DURATION" (sp_name t)
    (Math_round (convertHrtime_milliseconds elapsed)) ;;
  span_finish (sp_span t) ;;
  activity_done (sp_activity t).

(** *** Progress activities

    The counts [start], [current] and [total] are integer numbers (the spec's
    Activity has [current: integer]). *)

Record ProgressTracker : Type := mkProgressTracker {
  pr_span : nat;
  pr_activity : nat;
  pr_hasStarted : bool;
  pr_current : Z;
  pr_total : Z
}.

Definition createProgress (name : string) (total : Z) (start : option Z)
  (parentSpan : option nat) : M ProgressTracker :=
  span <- tracer_startSpan name parentSpan ;;
  let current := default 0 start in
  activity <- reporterInstance_createActivity
                (mkActivity name progress None None (Some current)
                   (Some total) false) ;;
  ret (mkProgressTracker span activity false current total).

Definition progress_start (t : ProgressTracker) : M ProgressTracker :=
  if pr_hasStarted t then ret t
  else
    startTime <- process_hrtime None ;;
    activity_update (pr_activity t) (PStartTime startTime) ;;
    ret (mkProgressTracker (pr_span t) (pr_activity t) true (pr_current t)
           (pr_total t)).

Definition progress_setStatus (t : ProgressTracker) (status : string)
  : M unit :=
  activity_update (pr_activity t) (PStatus status).

Definition progress_tick (t : ProgressTracker) : M ProgressTracker :=
  let current := js_increment (pr_current t) in
  activity_update (pr_activity t) (PCurrent current) ;;
  ret (mkProgressTracker (pr_span t) (pr_activity t) (pr_hasStarted t) current
         (pr_total t)).

Definition progress_done (t : ProgressTracker) : M unit :=
  span_finish (pr_span t) ;;
  activity_done (pr_activity t).

Definition progress_set_total (t : ProgressTracker) (total : Z)
  : M ProgressTracker :=
  activity_update (pr_activity t) (PTotal total) ;;
  ret (mkProgressTracker (pr_span t) (pr_activity t) (pr_hasStarted t)
         (pr_current t) total).

(** *** Calls a client of the reporter can make

    A tracker method is called on the tracker's closure variables as the
    caller last saw them; results are dropped.  The verbs ([success],
    [verbose], [info], [warn], [log]) are the backend's own; the overridden
    [console.log], [console.warn], [console.info] and [console.error] print
    through [log] as well.  [stripIndent] and [format] are functions of
    common-tags and chalk passed on as they are; they touch nothing the
    reporter owns. *)
Inductive call : Type :=
| CallSetVerbose (isVerbose : option bool)
| CallSetNoColor (isNoColor : option bool)
| CallPanic (args : list value)
| CallPanicOnBuild (args : list value)
| CallError (args : list value)
| CallUptime (prefix : string)
| CallPrint (v : verb) (text : string)
| CallSetStage (stage : string)
| CallActivityTimer (name : string) (parentSpan : option nat)
| CallSpinnerStart (t : SpinnerTracker)
| CallSpinnerSetStatus (t : SpinnerTracker) (status : string)
| CallSpinnerEnd (t : SpinnerTracker)
| CallCreateProgress (name : string) (total : Z) (start : option Z)
    (parentSpan : option nat)
| CallProgressStart (t : ProgressTracker)
| CallProgressSetStatus (t : ProgressTracker) (status : string)
| CallProgressTick (t : ProgressTracker)
| CallProgressDone (t : ProgressTracker)
| CallProgressSetTotal (t : ProgressTracker) (total : Z).

Definition void {A} (m : M A) : M unit := _ <- m ;; ret tt.

Definition run_call (c : call) : M unit :=
  match c with
  | CallSetVerbose b => setVerbose b
  | CallSetNoColor b => setNoColor b
  | CallPanic args => panic args
  | CallPanicOnBuild args => panicOnBuild args
  | CallError args => void (error args)
  | CallUptime prefix => uptime prefix
  | CallPrint v text => reporterInstance_print v text
  | CallSetStage stage => _setStage stage
  | CallActivityTimer name parentSpan => void (activityTimer name parentSpan)
  | CallSpinnerStart t => void (spinner_start t)
  | CallSpinnerSetStatus t status => spinner_setStatus t status
  | CallSpinnerEnd t => spinner_end t
  | CallCreateProgress name total start parentSpan =>
      void (createProgress name total start parentSpan)
  | CallProgressStart t => void (progress_start t)
  | CallProgressSetStatus t status => progress_setStatus t status
  | CallProgressTick t => void (progress_tick t)
  | CallProgressDone t => progress_done t
  | CallProgressSetTotal t total => void (progress_set_total t total)
  end.

(** One step of a run: a call into the reporter (however it ends), or the
    environment moving on (the clock, the uptime, the command variable). *)
Inductive step : world -> world -> Prop :=
| step_call (c : call) (w : world) : step w (run_call c w).2
| step_clock (t : hrtime) (w : world) : step w (set_now t w)
| step_uptime (u : string) (w : world) : step w (set_uptime_ms u w)
| step_env (c : option string) (w : world) : step w (set_command c w).

End Reporter.

(** [later w w']: [w'] is reached from [w] by any number of steps. *)
Inductive later `{Collaborators} : world -> world -> Prop :=
| later_now (w : world) : later w w
| later_step (w w1 w2 : world) : later w w1 -> step w1 w2 -> later w w2.

(** ** Reading a normalized error *)

(** [structuredError.context.sourceMessage], when it is there and a
    string. *)
Definition source_message (structuredError : value) : option string :=
  match structuredError with
  | VObj props =>
      match lookup_prop "context" props with
      | VObj context =>
          match lookup_prop "sourceMessage" context with
          | VStr s => Some s
          | _ => None
          end
      | _ => None
      end
  | _ => None
  end.

(** The source messages of what [error] returned: of the one structured
    error, or of each element of the sequence, in order. *)
Definition source_messages (result : value) : list (option string) :=
  match result with
  | VArr results => List.map source_message results
  | _ => [source_message result]
  end.

(** [structuredError.error] *)
Definition native_error (structuredError : value) : value :=
  match structuredError with
  | VObj props => lookup_prop "error" props
  | _ => VUndefined
  end.

(** ** A reference implementation of the collaborators *)

(** Modelled from the spec: [constructError]
    (../structured-errors/construct-error), whose code is not at hand.  The
    spec's StructuredError is [{ context: { sourceMessage }, error? }], it
    always has a context with a source message, and a pre-built details bag
    is passed through: details that carry a source message are answered as
    they are, other details are given a context that says so. *)
Definition reference_constructError (details : obj) : value :=
  match source_message (VObj details) with
  | Some _ => VObj details
  | None =>
      VObj (("context", VObj [("sourceMessage", VStr "Unknown error")])
            :: details)
  end.

Definition esc : ascii := ascii_of_nat 27.

(** An ANSI colour code starts with the control sequence introducer,
    ESC followed by an opening bracket. *)
Fixpoint has_ansi (s : string) : bool :=
  match s with
  | EmptyString => false
  | String c rest =>
      (Ascii.eqb c esc
       && match rest with
          | String "[" _ => true
          | _ => false
          end)
      || has_ansi rest
  end.

Fixpoint strip_esc (s : string) : string :=
  match s with
  | EmptyString => EmptyString
  | String c rest =>
      if Ascii.eqb c esc then strip_esc rest else String c (strip_esc rest)
  end.

(** Modelled from the spec: the text the error formatter of ./errors (code
    not at hand) renders.  In coloured mode the error is wrapped in a red
    foreground code; in colourless mode the text carries no escape
    character. *)
Definition reference_text (colourless : bool) (error : value) : string :=
  let text := default "[object]" (toStr error) in
  if colourless then strip_esc text
  else (String esc "[31m" ++ text) ++ String esc "[39m".

#[export] Instance reference : Collaborators := {|
  constructError := reference_constructError;
  errorFormatter_text := reference_text;
  reporterInstance_has_setStage := true
|}.

(** The world of a freshly started process running [gatsby command]. *)
Definition fresh (executing : option string) : world :=
  mkWorld (0, 0) executing "0.000" false [] [] [].

(** ** Contracts of the collaborators *)

(** [constructError] answers with an object. *)
Definition answers_object (C : Collaborators) : Prop :=
  forall details : obj, exists props : obj, constructError details = VObj props.

(** [constructError] answers details that carry a source message with a
    structured error that carries the same source message. *)
Definition keeps_source_message (C : Collaborators) : Prop :=
  forall (details : obj) (s : string),
    source_message (VObj details) = Some s ->
    source_message (constructError details) = Some s.

(** In colourless mode the formatter renders no ANSI colour code. *)
Definition colourless_text (C : Collaborators) : Prop :=
  forall error : value, has_ansi (errorFormatter_text true error) = false.

(** ** When [error] throws *)

(** The operand can be made a string. *)
Definition convertible (v : value) : bool :=
  match toStr v with
  | Some _ => true
  | None => false
  end.

(** [error.message] of an [error] that is not [null] or [undefined]. *)
Definition message_of (error : value) : value :=
  match error with
  | VError m => VStr m
  | VObj props => lookup_prop "message" props
  | _ => VUndefined
  end.

(** With two arguments: the second argument is [null] or [undefined] (its
    [message] cannot be read), or the first argument or the message of the
    second cannot be made a string; or the second argument is an array
    holding an element, at any depth, for which one of these is so. *)
Fixpoint throws2 (errorMeta error : value) : bool :=
  match error with
  | VArr items => existsb (throws2 errorMeta) items
  | VUndefined | VNull => true
  | _ => negb (convertible errorMeta) || negb (convertible (message_of error))
  end.

Definition throwing (args : list value) : bool :=
  match args with
  | [errorMeta; error] => throws2 errorMeta error
  | _ => false
  end.

(** ** The supported input shapes *)

Inductive item : Type :=
| ItemString (s : string)
| ItemError (message : string).

Inductive input : Type :=
| OneString (s : string)
| OneError (message : string)
| OneArray (items : list item)
| OneObject (props : obj)
| PrefixError (prefix message : string)
| PrefixArray (prefix : string) (items : list item).

Definition item_value (i : item) : value :=
  match i with
  | ItemString s => VStr s
  | ItemError m => VError m
  end.

Definition arguments_of (i : input) : list value :=
  match i with
  | OneString s => [VStr s]
  | OneError m => [VError m]
  | OneArray items => [VArr (List.map item_value items)]
  | OneObject props => [VObj props]
  | PrefixError prefix m => [VStr prefix; VError m]
  | PrefixArray prefix items => [VStr prefix; VArr (List.map item_value items)]
  end.

(** A pre-built object is one that carries a source message. *)
Definition prebuilt (i : input) : bool :=
  match i with
  | OneObject props =>
      match source_message (VObj props) with
      | Some _ => true
      | None => false
      end
  | _ => true
  end.

(** What an element says on its own, and behind a prefix (a string has no
    [message], which prints as [undefined]). *)
Definition item_alone (i : item) : string :=
  match i with
  | ItemString s => s
  | ItemError m => m
  end.

Definition item_prefixed (prefix : string) (i : item) : string :=
  match i with
  | ItemString _ => ((prefix ++ " ") ++ "undefined")%string
  | ItemError m => ((prefix ++ " ") ++ m)%string
  end.

Definition expected_messages (i : input) : list (option string) :=
  match i with
  | OneString s => [Some s]
  | OneError m => [Some m]
  | OneArray items => List.map (fun it => Some (item_alone it)) items
  | OneObject props => [source_message (VObj props)]
  | PrefixError prefix m => [Some ((prefix ++ " ") ++ m)%string]
  | PrefixArray prefix items =>
      List.map (fun it => Some (item_prefixed prefix it)) items
  end.

Definition is_sequence (i : input) : bool :=
  match i with
  | OneArray _ | PrefixArray _ _ => true
  | _ => false
  end.

Definition nonempty (m : option string) : bool :=
  match m with
  | Some s => negb (String.eqb s "")
  | None => false
  end.

(** All the source messages of the result are non-empty strings, read off
    the input. *)
Definition nonempty_input (i : input) : bool :=
  match i with
  | OneString s => negb (String.eqb s "")
  | OneError m => negb (String.eqb m "")
  | OneArray items =>
      forallb (fun it => negb (String.eqb (item_alone it) "")) items
  | OneObject props => nonempty (source_message (VObj props))
  | PrefixError _ _ | PrefixArray _ _ => true
  end.

(** [process.env.gatsby_executing_command === `build`] *)
Definition is_build (executing : option string) : bool :=
  match executing with
  | Some c => String.eqb c "build"
  | None => false
  end.

(** ** Clock readings and counts *)

(** A reading of [process.hrtime()]: whole seconds that a double holds
    exactly, and nanoseconds below one second. *)
Definition valid_reading (t : hrtime) : Prop :=
  0 <= fst t < 2 ^ 53 /\ 0 <= snd t < 1000000000.

(** The time between two clock readings, in nanoseconds. *)
Definition elapsed_nanoseconds (from until : hrtime) : Z :=
  (fst until - fst from) * 1000000000 + (snd until - snd from).

(** Two readings of a clock that did not go back, at most [2^52]
    nanoseconds (52 days) apart. *)
Definition measurable (from until : hrtime) : Prop :=
  valid_reading from /\ valid_reading until
  /\ 0 <= elapsed_nanoseconds from until <= 2 ^ 52.

(** The duration [end()] reports when [startTime] holds the reading [from]
    and the clock reads [until]. *)
Definition end_duration (from until : hrtime) : Z :=
  Math_round (convertHrtime_milliseconds (hrtime_diff until from)).

(** The elapsed time in milliseconds, to the nearest integer, a half going
    up. *)
Definition rounded_milliseconds (from until : hrtime) : Z :=
  (elapsed_nanoseconds from until + 500000) / 1000000.

(** [n] calls of [tick()] in a row. *)
Fixpoint ticks (n : nat) (t : ProgressTracker) : M ProgressTracker :=
  match n with
  | O => ret t
  | S n' => t' <- progress_tick t ;; ticks n' t'
  end.

Definition with_current (current : Z) (a : Activity) : Activity :=
  mkActivity (act_id a) (act_kind a) (act_status a) (act_startTime a)
    (Some current) (act_total a) (act_done a).

(** ** Activities of a run *)

(** The two factories, by the arguments they take besides the name. *)
Inductive factory : Type :=
| Timer (parentSpan : option nat)
| Progress (total : Z) (start : option Z) (parentSpan : option nat).

(** Creates an activity and answers with its handle at the backend. *)
Definition create (f : factory) (name : string) : M nat :=
  match f with
  | Timer parentSpan =>
      t <- activityTimer name parentSpan ;; ret (sp_activity t)
  | Progress total start parentSpan =>
      t <- createProgress name total start parentSpan ;; ret (pr_activity t)
  end.

(** The activity and the span a call creates. *)
Definition creates (c : call) : option (Activity * Span) :=
  match c with
  | CallActivityTimer name parentSpan =>
      Some (mkActivity name spinner (Some "") None None None false,
            mkSpan name parentSpan 0)
  | CallCreateProgress name total start parentSpan =>
      Some (mkActivity name progress None None (Some (default 0 start))
              (Some total) false,
            mkSpan name parentSpan 0)
  | _ => None
  end.

(** The activity a call updates: the one of the tracker it is called on. *)
Definition own_activity (c : call) : option nat :=
  match c with
  | CallSpinnerStart t | CallSpinnerSetStatus t _ | CallSpinnerEnd t =>
      Some (sp_activity t)
  | CallProgressStart t | CallProgressSetStatus t _ | CallProgressTick t
  | CallProgressDone t | CallProgressSetTotal t _ =>
      Some (pr_activity t)
  | _ => None
  end.


(** Events that record a call of [errorFormatter.render]. *)
Definition is_rendered (ev : event) : bool :=
  match ev with
  | Rendered _ _ => true
  | _ => false
  end.

(** ** Facts about the monad *)

Lemma bind_Ret {A B} (m : M A) (k : A -> M B) w a w' :
  m w = (Ret a, w') -> bind m k w = k a w'.
Proof. intros E. unfold bind. now rewrite E. Qed.

Lemma bind_Throw {A B} (m : M A) (k : A -> M B) w e w' :
  m w = (Throw e, w') -> bind m k w = (Throw e, w').
Proof. intros E. unfold bind. now rewrite E. Qed.

Lemma bind_Exit {A B} (m : M A) (k : A -> M B) w c w' :
  m w = (Exit c, w') -> bind m k w = (Exit c, w').
Proof. intros E. unfold bind. now rewrite E. Qed.

(** A relation between the world before and the world after that every
    computation built from related pieces maintains. *)
Section Preserves.
Variable R : world -> world -> Prop.
Hypothesis R_refl : forall w, R w w.
Hypothesis R_trans : forall a b c, R a b -> R b c -> R a c.

Definition preserves {A} (m : M A) : Prop := forall w, R w (m w).2.

Lemma preserves_ret {A} (a : A) : preserves (ret a).
Proof. intros w. apply R_refl. Qed.

Lemma preserves_throw {A} (e : exn) : preserves (@throw A e).
Proof. intros w. apply R_refl. Qed.

Lemma preserves_exit {A} (c : Z) : preserves (@process_exit A c).
Proof. intros w. apply R_refl. Qed.

Lemma preserves_gets {A} (f : world -> A) : preserves (gets f).
Proof. intros w. apply R_refl. Qed.

Lemma preserves_modify (f : world -> world) :
  (forall w, R w (f w)) -> preserves (modify f).
Proof. intros Hf w. apply Hf. Qed.

Lemma preserves_bind {A B} (m : M A) (k : A -> M B) :
  preserves m -> (forall a, preserves (k a)) -> preserves (bind m k).
Proof.
  intros Hm Hk w. unfold bind.
  specialize (Hm w). destruct (m w) as [[a | e | c] w1]; simpl in *; auto.
  eapply R_trans; [exact Hm | apply Hk].
Qed.

Lemma preserves_if {A} (b : bool) (m1 m2 : M A) :
  preserves m1 -> preserves m2 -> preserves (if b then m1 else m2).
Proof. now destruct b. Qed.

Lemma preserves_mapM {A B} (f : A -> M B) (l : list A) :
  Forall (fun x => preserves (f x)) l -> preserves (mapM f l).
Proof.
  induction 1 as [| x l Hx _ IH]; simpl.
  - apply preserves_ret.
  - apply preserves_bind; [exact Hx | intros y].
    apply preserves_bind; [exact IH | intros ys]. apply preserves_ret.
Qed.

Lemma preserves_get_prop (v : value) (key : string) :
  preserves (get_prop v key).
Proof.
  destruct v; simpl; first [apply preserves_throw | apply preserves_ret].
Qed.

Lemma preserves_ToString (v : value) : preserves (ToString v).
Proof.
  unfold ToString.
  destruct (toStr v); [apply preserves_ret | apply preserves_throw].
Qed.

Lemma preserves_process_hrtime (time : option (option hrtime)) :
  preserves (process_hrtime time).
Proof.
  destruct time as [[previous |] |]; simpl.
  - apply preserves_bind; [apply preserves_gets | intros; apply preserves_ret].
  - apply preserves_throw.
  - apply preserves_gets.
Qed.

End Preserves.

(** ** Facts about doubles *)

Section Doubles.
Local Open Scope Q_scope.

Lemma two_nonzero : ~ 2 == 0.
Proof. discriminate. Qed.

Lemma pow2_pos (e : Z) : 0 < pow2 e.
Proof. apply Qpower_0_lt. reflexivity. Qed.

Lemma pow2_add (a b : Z) : pow2 (a + b) == pow2 a * pow2 b.
Proof. apply Qpower_plus, two_nonzero. Qed.

Lemma pow2_cancel (e : Z) : pow2 e * pow2 (- e) == 1.
Proof. rewrite <- pow2_add, Z.add_opp_diag_r. reflexivity. Qed.

Lemma pow2_Z (n : Z) : (0 <= n)%Z -> pow2 n == inject_Z (2 ^ n).
Proof. intros H. unfold pow2. now rewrite Zpower_Qpower. Qed.

Lemma pow2_le (a b : Z) : (a <= b)%Z -> pow2 a <= pow2 b.
Proof. intros H. apply Qpower_le_compat_l; [exact H | discriminate]. Qed.

Lemma pow2_lt_inv (a b : Z) : pow2 a < pow2 b -> (a < b)%Z.
Proof. intros H. apply (Qpower_lt_compat_l_inv 2); [exact H | reflexivity]. Qed.

Lemma Qfloor_unique (y : Q) (k : Z) :
  inject_Z k <= y -> y < inject_Z (k + 1) -> Qfloor y = k.
Proof.
  intros Hle Hlt.
  pose proof (Qfloor_le y) as H1. pose proof (Qlt_floor y) as H2.
  assert (H3 : inject_Z k < inject_Z (Qfloor y + 1)) by lra.
  assert (H4 : inject_Z (Qfloor y) < inject_Z (k + 1)) by lra.
  rewrite <- Zlt_Qlt in H3, H4. lia.
Qed.

Lemma round_half_even_exact (q : Q) (n : Z) :
  q == inject_Z n -> round_half_even q = n.
Proof.
  intros H. unfold round_half_even.
  assert (Hf : Qfloor q = n) by (rewrite H; apply Qfloor_Z).
  rewrite Hf.
  destruct (Qcompare_spec (q - inject_Z n) (1 # 2)) as [E | E | E];
    [exfalso; lra | reflexivity | exfalso; lra].
Qed.

Lemma round_half_even_near (q : Q) :
  q - (1 # 2) <= inject_Z (round_half_even q) <= q + (1 # 2).
Proof.
  unfold round_half_even.
  pose proof (Qfloor_le q) as H1. pose proof (Qlt_floor q) as H2.
  rewrite inject_Z_plus in H2. change (inject_Z 1) with 1 in H2.
  destruct (Qcompare_spec (q - inject_Z (Qfloor q)) (1 # 2)) as [H | H | H];
    [destruct (Z.even (Qfloor q)) | |];
    rewrite ?inject_Z_plus; change (inject_Z 1) with 1; lra.
Qed.

Lemma pow2_lt (a b : Z) : (a < b)%Z -> pow2 a < pow2 b.
Proof. intros H. apply Qpower_lt_compat_l; [exact H | reflexivity]. Qed.

(** [2^(la - lb)] as a fraction of integers. *)
Lemma pow2_sub (la lb : Z) :
  (0 <= la)%Z -> (0 <= lb)%Z ->
  pow2 (la - lb) * inject_Z (2 ^ lb) == inject_Z (2 ^ la).
Proof.
  intros Ha Hb. rewrite <- (pow2_Z lb Hb), <- (pow2_Z la Ha), <- pow2_add.
  now replace (la - lb + lb)%Z with la by lia.
Qed.

Lemma cross_lt (x p a b l u : Q) :
  0 < b -> 0 < l -> x * b == a -> p * l == u -> a * l < u * b -> x < p.
Proof.
  intros Hb Hl Hx Hp H.
  apply (Qmult_lt_r _ _ (b * l)); [apply Qmult_lt_0_compat; assumption |].
  setoid_replace (x * (b * l)) with (a * l) using relation Qeq
    by (rewrite <- Hx; ring).
  setoid_replace (p * (b * l)) with (u * b) using relation Qeq
    by (rewrite <- Hp; ring).
  exact H.
Qed.

Lemma cross_le (x p a b l u : Q) :
  0 < b -> 0 < l -> x * b == a -> p * l == u -> u * b <= a * l -> p <= x.
Proof.
  intros Hb Hl Hx Hp H.
  apply (Qmult_le_r _ _ (b * l)); [apply Qmult_lt_0_compat; assumption |].
  setoid_replace (x * (b * l)) with (a * l) using relation Qeq
    by (rewrite <- Hx; ring).
  setoid_replace (p * (b * l)) with (u * b) using relation Qeq
    by (rewrite <- Hp; ring).
  exact H.
Qed.

Lemma inject_Z_pos (n : Z) : (0 < n)%Z -> 0 < inject_Z n.
Proof. intros H. change 0 with (inject_Z 0). now rewrite <- Zlt_Qlt. Qed.

Lemma exponent_spec (x : Q) :
  0 < x -> pow2 (exponent x) <= x /\ x < pow2 (exponent x + 1).
Proof.
  intros Hx. unfold exponent.
  set (a := Qnum x). set (b := Z.pos (Qden x)).
  assert (Ha : (0 < a)%Z).
  { unfold Qlt in Hx. simpl in Hx. subst a. lia. }
  assert (Hb : (0 < b)%Z) by (subst b; lia).
  pose proof (Z.log2_spec a Ha) as [Ha1 Ha2].
  pose proof (Z.log2_spec b Hb) as [Hb1 Hb2].
  pose proof (Z.log2_nonneg a) as Hla. pose proof (Z.log2_nonneg b) as Hlb.
  set (la := Z.log2 a) in *. set (lb := Z.log2 b) in *.
  assert (Hxab : x * inject_Z b == inject_Z a).
  { subst a b. destruct x as [n d]. unfold Qeq. simpl. lia. }
  pose proof (inject_Z_pos b Hb) as HB.
  destruct (Qle_bool (pow2 (la - lb)) x) eqn:Ht.
  - apply Qle_bool_iff in Ht. split; [exact Ht |].
    replace (la - lb + 1)%Z with ((la + 1) - lb)%Z by lia.
    apply (cross_lt x _ (inject_Z a) (inject_Z b) (inject_Z (2 ^ lb))
             (inject_Z (2 ^ (la + 1)))); try assumption.
    + apply inject_Z_pos. lia.
    + apply pow2_sub; lia.
    + rewrite <- !inject_Z_mult, <- Zlt_Qlt.
      replace (la + 1)%Z with (Z.succ la) by lia. nia.
  - assert (Hnot : ~ pow2 (la - lb) <= x).
    { intros H. apply Qle_bool_iff in H. congruence. }
    apply Qnot_le_lt in Hnot. split.
    + replace (la - lb - 1)%Z with (la - (lb + 1))%Z by lia.
      apply (cross_le x _ (inject_Z a) (inject_Z b) (inject_Z (2 ^ (lb + 1)))
               (inject_Z (2 ^ la))); try assumption.
      * apply inject_Z_pos. lia.
      * apply pow2_sub; lia.
      * rewrite <- !inject_Z_mult, <- Zle_Qle.
        replace (lb + 1)%Z with (Z.succ lb) by lia. nia.
    + now replace (la - lb - 1 + 1)%Z with (la - lb)%Z by lia.
Qed.

Lemma inject_Z_minus (a b : Z) : inject_Z (a - b) == inject_Z a - inject_Z b.
Proof. unfold Z.sub. now rewrite inject_Z_plus, inject_Z_opp. Qed.

Lemma pow2_le_inv (a b : Z) : pow2 a <= pow2 b -> (a <= b)%Z.
Proof. intros H. apply (Qpower_le_compat_l_inv 2); [exact H | reflexivity]. Qed.

Lemma round_positive_exact (x : Q) (n : Z) :
  x * pow2 (- (exponent x - 52)) == inject_Z n -> round_positive x == x.
Proof.
  intros H. unfold round_positive.
  rewrite (round_half_even_exact _ _ H), <- H, <- Qmult_assoc.
  rewrite (Qmult_comm (pow2 _)), pow2_cancel. ring.
Qed.

Lemma round_positive_near (x : Q) :
  x - pow2 (exponent x - 53) <= round_positive x
  /\ round_positive x <= x + pow2 (exponent x - 53).
Proof.
  unfold round_positive. set (e := (exponent x - 52)%Z).
  replace (exponent x - 53)%Z with (e + -1)%Z by (subst e; lia).
  rewrite pow2_add. change (pow2 (-1)) with (1 # 2).
  pose proof (round_half_even_near (x * pow2 (- e))) as [Hlo Hhi].
  pose proof (pow2_pos e) as HP. pose proof (pow2_cancel e) as Hc.
  set (m := inject_Z (round_half_even (x * pow2 (- e)))) in *.
  assert (Hx : x * pow2 (- e) * pow2 e == x).
  { rewrite <- Qmult_assoc, (Qmult_comm (pow2 (- e))), Hc. ring. }
  split.
  - apply (Qle_trans _ ((x * pow2 (- e) - (1 # 2)) * pow2 e)).
    + rewrite <- Hx at 1. ring_simplify. apply Qle_refl.
    + apply Qmult_le_compat_r; [exact Hlo | now apply Qlt_le_weak].
  - apply (Qle_trans _ ((x * pow2 (- e) + (1 # 2)) * pow2 e)).
    + apply Qmult_le_compat_r; [exact Hhi | now apply Qlt_le_weak].
    + rewrite <- Hx at 2. ring_simplify. apply Qle_refl.
Qed.

Lemma to_double_comp (x y : Q) : x == y -> to_double x = to_double y.
Proof. intros H. unfold to_double. now rewrite (Qred_complete _ _ H). Qed.

Lemma round_positive_integer (y : Q) (n : Z) :
  y == inject_Z n -> (0 < n <= 2 ^ 53)%Z -> round_positive y == y.
Proof.
  intros Hy [Hn0 Hn].
  assert (Hpos : 0 < y) by (rewrite Hy; now apply inject_Z_pos).
  destruct (exponent_spec y Hpos) as [He _].
  assert (Hy53 : y <= pow2 53).
  { rewrite Hy, (pow2_Z 53) by lia. now rewrite <- Zle_Qle. }
  assert (He53 : (exponent y <= 53)%Z).
  { apply pow2_le_inv. now apply (Qle_trans _ y). }
  destruct (Z.eq_dec (exponent y) 53%Z) as [E | E].
  - assert (Hn53 : n = (2 ^ 53)%Z).
    { rewrite E in He. rewrite Hy, (pow2_Z 53) in He by lia.
      rewrite <- Zle_Qle in He. lia. }
    apply (round_positive_exact y (2 ^ 52)).
    rewrite E. rewrite Hy, Hn53. reflexivity.
  - apply (round_positive_exact y (n * 2 ^ (- (exponent y - 52)))).
    set (e := exponent y) in *.
    rewrite Hy, pow2_Z by lia. now rewrite inject_Z_mult.
Qed.

Lemma to_double_integer (n : Z) :
  (Z.abs n <= 2 ^ 53)%Z -> to_double (inject_Z n) == inject_Z n.
Proof.
  intros Hn. unfold to_double.
  pose proof (Qred_correct (inject_Z n)) as Hy.
  set (y := Qred (inject_Z n)) in *.
  destruct (Qcompare_spec y 0) as [E | E | E].
  - now rewrite <- Hy, E.
  - assert (Hneg : (n < 0)%Z).
    { rewrite Hy in E. change 0 with (inject_Z 0) in E.
      now rewrite <- Zlt_Qlt in E. }
    rewrite (round_positive_integer (- y) (- n)).
    + rewrite Hy. ring.
    + rewrite Hy, inject_Z_opp. reflexivity.
    + lia.
  - assert (Hpos : (0 < n)%Z).
    { rewrite Hy in E. change 0 with (inject_Z 0) in E.
      now rewrite <- Zlt_Qlt in E. }
    rewrite (round_positive_integer y n); [exact Hy | exact Hy | lia].
Qed.

Lemma round_to_millisecond (n : Z) :
  (0 <= n <= 2 ^ 52)%Z ->
  Math_round (to_double (inject_Z n / 1000000))
  = ((n + 500000) / 1000000)%Z.
Proof.
  intros [Hn0 Hn].
  destruct (Z.eq_dec n 0%Z) as [-> | Hnz]; [reflexivity |].
  unfold to_double.
  pose proof (Qred_correct (inject_Z n / 1000000)) as Hy.
  set (y := Qred (inject_Z n / 1000000)) in *.
  assert (Hyn : y * 1000000 == inject_Z n).
  { rewrite Hy. field. }
  assert (Hn' : 0 < inject_Z n) by (apply inject_Z_pos; lia).
  assert (Hpos : 0 < y) by lra.
  apply Qgt_alt in Hpos as Hcmp. rewrite Hcmp.
  set (k := ((n + 500000) / 1000000)%Z).
  pose proof (Z.div_mod (n + 500000) 1000000 ltac:(lia)) as Hdiv.
  pose proof (Z.mod_pos_bound (n + 500000) 1000000 ltac:(lia)) as Hmod.
  fold k in Hdiv.
  assert (Hk1 : (1000000 * k <= n + 500000)%Z) by lia.
  assert (Hk2 : (n + 500000 < 1000000 * k + 1000000)%Z) by lia.
  assert (Hk1q : 1000000 * inject_Z k <= inject_Z n + 500000).
  { change 1000000 with (inject_Z 1000000).
    change 500000 with (inject_Z 500000).
    rewrite <- inject_Z_mult, <- inject_Z_plus, <- Zle_Qle. exact Hk1. }
  assert (Hk2q : inject_Z n + 500001 <= 1000000 * inject_Z k + 1000000).
  { change 1000000 with (inject_Z 1000000).
    change 500001 with (inject_Z 500001).
    rewrite <- inject_Z_mult, <- !inject_Z_plus, <- Zle_Qle. lia. }
  destruct (exponent_spec y Hpos) as [He _].
  assert (He32 : (exponent y <= 32)%Z).
  { assert (Hlt : pow2 (exponent y) < pow2 33).
    { apply (Qle_lt_trans _ y); [exact He |].
      assert (Hn52 : inject_Z n <= inject_Z (2 ^ 52)) by now rewrite <- Zle_Qle.
      change (inject_Z (2 ^ 52)) with 4503599627370496 in Hn52.
      change (pow2 33) with 8589934592. lra. }
    apply pow2_lt_inv in Hlt. lia. }
  destruct (round_positive_near y) as [Hlo Hhi].
  assert (Herr : pow2 (exponent y - 53) <= 1 # 2097152).
  { change (1 # 2097152) with (pow2 (-21)). apply pow2_le. lia. }
  unfold Math_round. apply Qfloor_unique.
  - destruct (Z.eq_dec n (1000000 * k - 500000)%Z) as [En | En].
    + assert (Hexact : round_positive y == y).
      { apply (round_positive_exact y
                 ((2 * k - 1) * 2 ^ (- (exponent y - 52) - 1))).
        rewrite inject_Z_mult, <- pow2_Z by lia.
        replace (- (exponent y - 52))%Z
          with (1 + (- (exponent y - 52) - 1))%Z at 1 by lia.
        rewrite pow2_add. change (pow2 1) with 2.
        assert (Hy2 : y * 2 == inject_Z (2 * k - 1)).
        { assert (H : inject_Z n == 1000000 * inject_Z k - 500000).
          { rewrite En. rewrite inject_Z_minus, inject_Z_mult. reflexivity. }
          rewrite inject_Z_minus, inject_Z_mult.
          change (inject_Z 2) with 2. change (inject_Z 1) with 1. lra. }
        rewrite Qmult_assoc, Hy2. reflexivity. }
      rewrite Hexact.
      assert (H : inject_Z n == 1000000 * inject_Z k - 500000).
      { rewrite En. rewrite inject_Z_minus, inject_Z_mult. reflexivity. }
      lra.
    + assert (H : 1000000 * inject_Z k - 499999 <= inject_Z n).
      { change 1000000 with (inject_Z 1000000).
        change 499999 with (inject_Z 499999).
        rewrite <- inject_Z_mult, <- inject_Z_minus, <- Zle_Qle. lia. }
      lra.
  - rewrite inject_Z_plus. change (inject_Z 1) with 1. lra.
Qed.


Lemma double_of_Z_exact (n : Z) :
  (Z.abs n <= 2 ^ 53)%Z -> double_of_Z n = n.
Proof.
  intros H. unfold double_of_Z.
  rewrite (to_double_integer n H). apply Qfloor_Z.
Qed.

(** Below [2^53] an increment is exact. *)
Lemma js_increment_exact (n : Z) :
  (- 2 ^ 53 <= n < 2 ^ 53)%Z -> js_increment n = (n + 1)%Z.
Proof. intros H. apply double_of_Z_exact. lia. Qed.

(** convert-hrtime and [Math.round] on a duration of up to [2^52]
    nanoseconds: every intermediate double is exact but the quotient, whose
    error is too small to move the rounding. *)
Lemma convertHrtime_exact (sec nsec : Z) :
  (0 <= sec)%Z -> (0 <= nsec)%Z -> (sec * 1000000000 + nsec <= 2 ^ 52)%Z ->
  Math_round (convertHrtime_milliseconds (sec, nsec))
  = ((sec * 1000000000 + nsec + 500000) / 1000000)%Z.
Proof.
  intros Hsec Hnsec Hbound.
  unfold convertHrtime_milliseconds, convertHrtime_nanoseconds.
  cbn [fst snd].
  assert (H1 : to_double (inject_Z sec * 1000000000)
               == inject_Z (sec * 1000000000)).
  { rewrite (to_double_comp _ (inject_Z (sec * 1000000000))).
    - apply to_double_integer. lia.
    - rewrite inject_Z_mult. reflexivity. }
  assert (H2 : to_double (to_double (inject_Z sec * 1000000000) + inject_Z nsec)
               == inject_Z (sec * 1000000000 + nsec)).
  { rewrite (to_double_comp _ (inject_Z (sec * 1000000000 + nsec))).
    - apply to_double_integer. lia.
    - rewrite H1, inject_Z_plus. reflexivity. }
  rewrite (to_double_comp _ (inject_Z (sec * 1000000000 + nsec) / 1000000))
    by (rewrite H2; reflexivity).
  apply round_to_millisecond. lia.
Qed.

End Doubles.

(** Between valid readings [process.hrtime(previous)] is exact. *)
Lemma hrtime_diff_exact (from until : hrtime) :
  valid_reading from -> valid_reading until ->
  hrtime_diff until from
  = if snd until - snd from <? 0
    then (fst until - fst from - 1, snd until - snd from + 1000000000)
    else (fst until - fst from, snd until - snd from).
Proof.
  intros [Hs1 Hn1] [Hs2 Hn2]. unfold hrtime_diff.
  rewrite !(double_of_Z_exact (fst until - fst from)) by lia.
  rewrite !(double_of_Z_exact (snd until - snd from)) by lia.
  destruct (snd until - snd from <? 0) eqn:Hborrow; [| reflexivity].
  apply Z.ltb_lt in Hborrow.
  now rewrite !double_of_Z_exact by lia.
Qed.

(** The duration [end()] computes between two measurable readings is the
    elapsed time to the nearest millisecond. *)
Lemma duration_exact (from until : hrtime) :
  measurable from until ->
  end_duration from until = rounded_milliseconds from until.
Proof.
  intros (Hfrom & Huntil & Helapsed). unfold end_duration.
  rewrite (hrtime_diff_exact _ _ Hfrom Huntil).
  destruct Hfrom as [Hs1 Hn1]. destruct Huntil as [Hs2 Hn2].
  unfold rounded_milliseconds, elapsed_nanoseconds in *.
  destruct (snd until - snd from <? 0) eqn:Hborrow.
  - apply Z.ltb_lt in Hborrow.
    rewrite convertHrtime_exact by lia. f_equal. lia.
  - apply Z.ltb_ge in Hborrow.
    rewrite convertHrtime_exact by lia. f_equal.
Qed.

Lemma rounded_milliseconds_near (from until : hrtime) :
  elapsed_nanoseconds from until - 500000
  < rounded_milliseconds from until * 1000000
  <= elapsed_nanoseconds from until + 500000.
Proof.
  unfold rounded_milliseconds.
  set (e := elapsed_nanoseconds from until).
  pose proof (Z.div_mod (e + 500000) 1000000 ltac:(lia)) as Hdiv.
  pose proof (Z.mod_pos_bound (e + 500000) 1000000 ltac:(lia)) as Hmod.
  lia.
Qed.

(** ** The error normalizer *)

Section Normalizer.
Context {C : Collaborators}.

(** The world after the tail of [error] ran on a structured error: the
    backend got the structured error, and its native error, when there is
    one, was rendered and logged. *)
Definition after_report (structuredError : value) (w : world) : world :=
  let reported := emit (ReportError structuredError) w in
  let native := native_error structuredError in
  if truthy native
  then
    let text := errorFormatter_text (colorless w) native in
    emit (Print Log text) (emit (Rendered native text) reported)
  else reported.

Lemma error2_array errorMeta items :
  error2 errorMeta (VArr items)
  = (results <- mapM (error2 errorMeta) items ;; ret (VArr results)).
Proof. reflexivity. Qed.

Lemma error1_array items :
  error1 (VArr items) = (results <- mapM error1 items ;; ret (VArr results)).
Proof. reflexivity. Qed.

(** Both functions, written as the chain of tests of the source. *)
Lemma error2_dispatch (errorMeta error : value) :
  error2 errorMeta error
  = if Array_isArray error
    then
      match error with
      | VArr items =>
          results <- mapM (error2 errorMeta) items ;; ret (VArr results)
      | _ => ret VUndefined
      end
    else
      prefix <- ToString errorMeta ;;
      message <- get_prop error "message" ;;
      text <- ToString message ;;
      report_details
        [("error", error);
         ("context",
           VObj [("sourceMessage", VStr ((prefix ++ " ") ++ text))])].
Proof. destruct error; reflexivity. Qed.

Lemma error1_dispatch (errorMeta : value) :
  error1 errorMeta
  = if instanceof_Error errorMeta
    then
      message <- get_prop errorMeta "message" ;;
      report_details
        [("error", errorMeta);
         ("context", VObj [("sourceMessage", message)])]
    else if Array_isArray errorMeta
    then
      match errorMeta with
      | VArr items => results <- mapM error1 items ;; ret (VArr results)
      | _ => ret VUndefined
      end
    else if String.eqb (typeof errorMeta) "object"
    then
      report_details
        (Object_assign_empty
           match errorMeta with
           | VObj props => Some props
           | _ => None
           end)
    else if String.eqb (typeof errorMeta) "string"
    then report_details [("context", VObj [("sourceMessage", errorMeta)])]
    else report_details [].
Proof. destruct errorMeta; reflexivity. Qed.

Lemma mapM_returns {A B} (f : A -> M B) (Q : A -> B -> Prop) (l : list A) :
  Forall (fun x => forall w, exists y w', f x w = (Ret y, w') /\ Q x y) l ->
  forall w, exists ys w', mapM f l w = (Ret ys, w') /\ Forall2 Q l ys.
Proof.
  induction 1 as [| x l Hx _ IH]; intros w; simpl.
  - exists [], w. split; [reflexivity | constructor].
  - destruct (Hx w) as (y & w1 & Ey & Qy).
    destruct (IH w1) as (ys & w2 & Eys & Qys).
    exists (y :: ys), w2. split; [| now constructor].
    rewrite (bind_Ret _ _ _ _ _ Ey), (bind_Ret _ _ _ _ _ Eys). reflexivity.
Qed.

(** The tail of [error] on details that [constructError] answers with an
    object. *)
Lemma report_details_object (details props : obj) (w : world) :
  constructError details = VObj props ->
  report_details details w = (Ret (VObj props), after_report (VObj props) w).
Proof.
  intros E. unfold report_details, after_report. rewrite E. simpl truthy.
  unfold bind, reporterInstance_error, modify, get_prop, ret; simpl.
  destruct (truthy (lookup_prop "error" props)); reflexivity.
Qed.

(** The second argument of [error], when it is not an array: the call
    throws before anything is reported, or it reaches the tail of [error]
    with the concatenated source message. *)
Lemma error2_leaf_run (errorMeta error : value) (w : world) :
  Array_isArray error = false ->
  error2 errorMeta error w
  = match toStr errorMeta with
    | None => (Throw (TypeError "Cannot convert object to primitive value"), w)
    | Some prefix =>
        match error with
        | VUndefined | VNull =>
            (Throw (TypeError "Cannot read property 'message'"), w)
        | _ =>
            match toStr (message_of error) with
            | None =>
                (Throw (TypeError "Cannot convert object to primitive value"),
                 w)
            | Some text =>
                report_details
                  [("error", error);
                   ("context",
                     VObj [("sourceMessage",
                             VStr ((prefix ++ " ") ++ text))])] w
            end
        end
    end.
Proof.
  intros Harr. rewrite error2_dispatch, Harr.
  unfold ToString at 1. unfold bind at 1.
  destruct (toStr errorMeta) as [prefix |]; [| reflexivity].
  unfold ret at 1.
  destruct error as [| | b | s | m | items | props]; try discriminate Harr;
    try reflexivity.
  cbn [message_of get_prop]. unfold bind at 1, ret at 1, ToString, bind at 1.
  now destruct (toStr (lookup_prop "message" props)).
Qed.

Lemma error2_leaf (errorMeta error : value) (w : world) :
  Array_isArray error = false ->
  (throws2 errorMeta error = false ->
   exists prefix text,
     toStr errorMeta = Some prefix
     /\ toStr (message_of error) = Some text
     /\ error2 errorMeta error w
        = report_details
            [("error", error);
             ("context",
               VObj [("sourceMessage", VStr ((prefix ++ " ") ++ text))])] w)
  /\ (throws2 errorMeta error = true ->
      exists e, error2 errorMeta error w = (Throw e, w)).
Proof.
  intros Harr. rewrite (error2_leaf_run _ _ _ Harr).
  assert (Hthrows :
    throws2 errorMeta error
    = match error with
      | VUndefined | VNull => true
      | _ => negb (convertible errorMeta)
             || negb (convertible (message_of error))
      end).
  { now destruct error. }
  rewrite Hthrows. unfold convertible.
  destruct (toStr errorMeta) as [prefix |].
  - destruct error as [| | b | s | m | items | props]; try discriminate Harr;
      try (split; [discriminate | intros _; eexists; reflexivity]);
      (destruct (toStr (message_of _)) as [text |]; simpl;
       [ split; [intros _; now exists prefix, text | discriminate]
       | split; [discriminate | intros _; eexists; reflexivity] ]).
  - split.
    + now destruct error.
    + intros _. eexists. reflexivity.
Qed.

Hypothesis Hobject : answers_object C.

Lemma report_details_returns (details : obj) (w : world) :
  exists props,
    report_details details w = (Ret (VObj props), after_report (VObj props) w).
Proof.
  destruct (Hobject details) as (props & E). exists props.
  now apply report_details_object.
Qed.

(** With one argument the normalizer always returns. *)
Lemma error1_returns (errorMeta : value) :
  forall w, exists v w', error1 errorMeta w = (Ret v, w').
Proof.
  induction errorMeta as [| | b | s | m | items IH | props] using value_arr_ind;
    intros w;
    try (simpl;
         match goal with
         | |- context [report_details ?d w] =>
             destruct (report_details_returns d w) as (props' & E)
         end; rewrite E; eauto; fail).
  rewrite error1_array.
  destruct (mapM_returns error1 (fun _ _ => True) items) with (w := w)
    as (ys & w' & E & _).
  - eapply Forall_impl; [exact IH |]. intros x Hx w0.
    destruct (Hx w0) as (v & w1 & Ev). eauto.
  - rewrite (bind_Ret _ _ _ _ _ E). unfold ret. eauto.
Qed.

(** With two arguments it returns or throws: it throws when it has to read
    the message of [null] or [undefined], or to make a string of an object
    that has no conversion. *)
Lemma error2_returns_or_throws (errorMeta error : value) :
  forall w,
    (throws2 errorMeta error = false ->
     exists v w', error2 errorMeta error w = (Ret v, w'))
    /\ (throws2 errorMeta error = true ->
        exists e w', error2 errorMeta error w = (Throw e, w')).
Proof.
  induction error as [| | b | s | m | items IH | props] using value_arr_ind;
    intros w;
    try (match goal with
         | |- context [error2 errorMeta ?x w] =>
             destruct (error2_leaf errorMeta x w eq_refl) as [Hret Hthrow]
         end;
         split; intros Hn;
         [ destruct (Hret Hn) as (prefix & text & _ & _ & E); rewrite E;
           match goal with
           | |- context [report_details ?d w] =>
               destruct (report_details_returns d w) as (props' & E')
           end; rewrite E'; eauto
         | destruct (Hthrow Hn) as (e & E); eauto ]; fail).
  rewrite error2_array. simpl throws2.
  assert (Hmap : forall w0,
    (existsb (throws2 errorMeta) items = false ->
     exists ys w', mapM (error2 errorMeta) items w0 = (Ret ys, w'))
    /\ (existsb (throws2 errorMeta) items = true ->
        exists e w', mapM (error2 errorMeta) items w0 = (Throw e, w'))).
  { clear w. induction IH as [| x l Hx _ IHl]; intros w0; simpl.
    - split; [intros _; unfold ret; eauto | discriminate].
    - destruct (Hx w0) as [Hret Hthrow].
      destruct (throws2 errorMeta x); simpl.
      + split; [discriminate | intros _].
        destruct (Hthrow eq_refl) as (e & w' & E).
        rewrite (bind_Throw _ _ _ _ _ E). eauto.
      + destruct (Hret eq_refl) as (y & w1 & E).
        rewrite (bind_Ret _ _ _ _ _ E).
        destruct (IHl w1) as [Hl_ret Hl_throw]. split; intros Hn.
        * destruct (Hl_ret Hn) as (ys & w' & El).
          rewrite (bind_Ret _ _ _ _ _ El). unfold ret. eauto.
        * destruct (Hl_throw Hn) as (e & w' & El).
          rewrite (bind_Throw _ _ _ _ _ El). eauto. }
  destruct (Hmap w) as [Hret Hthrow]. split; intros Hn.
  - destruct (Hret Hn) as (ys & w' & E).
    rewrite (bind_Ret _ _ _ _ _ E). unfold ret. eauto.
  - destruct (Hthrow Hn) as (e & w' & E).
    rewrite (bind_Throw _ _ _ _ _ E). eauto.
Qed.

Lemma error_returns_or_throws (args : list value) (w : world) :
  (throwing args = false -> exists v w', error args w = (Ret v, w'))
  /\ (throwing args = true -> exists e w', error args w = (Throw e, w')).
Proof.
  destruct args as [| errorMeta [| err [| extra rest]]]; simpl.
  - split; [intros _ | discriminate].
    destruct (report_details_returns [] w) as (props & E). rewrite E. eauto.
  - split; [intros _ | discriminate]. apply error1_returns.
  - apply error2_returns_or_throws.
  - split; [intros _ | discriminate].
    destruct (report_details_returns [] w) as (props & E). rewrite E. eauto.
Qed.

End Normalizer.

(** ** Relations every reporter call maintains *)

(** Splits a computation into its calls; what is left are the changes of
    the world the calls make. *)
Ltac stable_step :=
  lazymatch goal with
  | |- preserves _ (bind _ _) =>
      apply preserves_bind; [assumption | | intros ?]
  | |- preserves _ (ret _) => apply preserves_ret; assumption
  | |- preserves _ (throw _) => apply preserves_throw; assumption
  | |- preserves _ (process_exit _) => apply preserves_exit; assumption
  | |- preserves _ (gets _) => apply preserves_gets; assumption
  | |- preserves _ (get_prop _ _) => apply preserves_get_prop; assumption
  | |- preserves _ (ToString _) => apply preserves_ToString; assumption
  | |- preserves _ (process_hrtime _) =>
      apply preserves_process_hrtime; assumption
  | |- preserves _ (modify _) => apply preserves_modify; intros ?
  | |- preserves _ (mapM _ _) =>
      apply preserves_mapM; [assumption | assumption |]
  | |- preserves _ (if _ then _ else _) => apply preserves_if
  | |- preserves _ (match ?x with _ => _ end) => destruct x
  end.

Ltac stable := repeat stable_step.

Section Stable.
Context {C : Collaborators}.
Variable R : world -> world -> Prop.
Hypothesis R_refl : forall w, R w w.
Hypothesis R_trans : forall a b c, R a b -> R b c -> R a c.
Hypothesis R_emit : forall ev w, is_rendered ev = false -> R w (emit ev w).
Hypothesis R_render :
  forall e w, R w (emit (Rendered e (errorFormatter_text (colorless w) e)) w).

Lemma preserves_render (e : value) : preserves R (errorFormatter_render e).
Proof. intros w. apply R_render. Qed.

Lemma preserves_report_details (details : obj) :
  preserves R (report_details details).
Proof.
  unfold report_details, reporterInstance_error, log, reporterInstance_print.
  stable; try (apply R_emit; reflexivity). apply preserves_render.
Qed.

Lemma preserves_error2 (errorMeta error : value) :
  preserves R (error2 errorMeta error).
Proof.
  induction error as [| | b | s | m | items IH | props] using value_arr_ind;
    try (rewrite error2_dispatch; cbn [Array_isArray]; stable;
         apply preserves_report_details).
  rewrite error2_array. stable. exact IH.
Qed.

Lemma preserves_error1 (errorMeta : value) : preserves R (error1 errorMeta).
Proof.
  induction errorMeta as [| | b | s | m | items IH | props] using value_arr_ind;
    try (simpl; apply preserves_report_details).
  rewrite error1_array. stable. exact IH.
Qed.

Lemma preserves_error (args : list value) : preserves R (error args).
Proof.
  destruct args as [| errorMeta [| err [| extra rest]]]; simpl;
    auto using preserves_report_details, preserves_error1, preserves_error2.
Qed.

Hypothesis R_colorless : forall w, R w (set_colorless true w).
Hypothesis R_activities : forall l w, R w (set_activities l w).
Hypothesis R_spans : forall l w, R w (set_spans l w).

Lemma preserves_run_call (c : call) : preserves R (run_call c).
Proof.
  destruct c; simpl;
    unfold void, setVerbose, setNoColor, panic, panicOnBuild, uptime,
      _setStage, activityTimer, spinner_start, spinner_setStatus, spinner_end,
      createProgress, progress_start, progress_setStatus, progress_tick,
      progress_done, progress_set_total, errorFormatter_withoutColors,
      reporterInstance_setVerbose, reporterInstance_setColors,
      reporterInstance_print, reporterInstance_setStage, trackError, trackCli,
      span_finish, activity_update, activity_done;
    stable;
    try apply preserves_error;
    try (apply R_emit; reflexivity);
    try apply R_activities; try apply R_spans;
    try (intros w; apply R_activities); try (intros w; apply R_spans).
  eapply R_trans; [apply R_colorless | apply R_emit; reflexivity].
Qed.

End Stable.

(** [error] changes nothing but the trace. *)
Lemma error_keeps_command `{Collaborators} (args : list value) (w : world) :
  command (error args w).2 = command w.
Proof.
  apply (preserves_error (fun w w' => command w' = command w)); try reflexivity.
  intros a b c Hab Hbc. now rewrite Hbc.
Qed.

(** ** What [error] returns *)

Lemma prefixed_nonempty (prefix text : string) :
  String.eqb ((prefix ++ " ") ++ text) "" = false.
Proof. destruct prefix; reflexivity. Qed.

(** The copy [Object.assign] makes has the properties of its source but the
    one the prototype setter takes. *)
Lemma lookup_prop_assign (key : string) (props : obj) :
  String.eqb key "__proto__" = false ->
  lookup_prop key (Object_assign_empty (Some props)) = lookup_prop key props.
Proof.
  intros Hkey. induction props as [| [k v] props IH]; [reflexivity |].
  simpl in *. destruct (String.eqb k "__proto__") eqn:Hk; simpl.
  - apply String.eqb_eq in Hk. subst k.
    rewrite String.eqb_sym, Hkey. exact IH.
  - destruct (String.eqb k key); [reflexivity | exact IH].
Qed.

Lemma source_message_assign (props : obj) :
  source_message (VObj (Object_assign_empty (Some props)))
  = source_message (VObj props).
Proof. unfold source_message. now rewrite lookup_prop_assign. Qed.

Lemma reference_answers_object : answers_object reference.
Proof.
  intros details. simpl. unfold reference_constructError.
  destruct (source_message (VObj details)); eauto.
Qed.

Lemma reference_keeps_source_message : keeps_source_message reference.
Proof.
  intros details s H. simpl. unfold reference_constructError. now rewrite H.
Qed.

(** A [constructError] that passes the context of the details through
    keeps their source message. *)
Lemma context_keeps_source_message (C : Collaborators) :
  (forall details : obj,
      exists props : obj,
        constructError details = VObj props
        /\ lookup_prop "context" props = lookup_prop "context" details) ->
  keeps_source_message C.
Proof.
  intros Hpass details s Hs. destruct (Hpass details) as (props & E & Hc).
  rewrite E. unfold source_message in *. now rewrite Hc.
Qed.

Section Messages.
Context {C : Collaborators}.
Hypothesis Hkeep : keeps_source_message C.

(** The tail of [error] on details that carry a source message. *)
Lemma report_details_source (details : obj) (s : string) (w : world) :
  source_message (VObj details) = Some s ->
  exists result w',
    report_details details w = (Ret result, w')
    /\ source_message result = Some s.
Proof.
  intros Hs. pose proof (Hkeep details s Hs) as Hresult.
  destruct (constructError details) as [| | | | | | props] eqn:E;
    try discriminate Hresult.
  rewrite (report_details_object _ _ _ E). eauto.
Qed.

Lemma mapM_items (f : value -> M value) (g : item -> option string) :
  (forall it w, exists y w',
      f (item_value it) w = (Ret y, w') /\ source_message y = g it) ->
  forall items w, exists ys w',
    mapM f (List.map item_value items) w = (Ret ys, w')
    /\ List.map source_message ys = List.map g items.
Proof.
  intros Hf items. induction items as [| it items IH]; intros w; simpl.
  - exists [], w. split; reflexivity.
  - destruct (Hf it w) as (y & w1 & Ey & Hy).
    destruct (IH w1) as (ys & w2 & Eys & Hys).
    exists (y :: ys), w2.
    rewrite (bind_Ret _ _ _ _ _ Ey), (bind_Ret _ _ _ _ _ Eys).
    split; [reflexivity | simpl; now rewrite Hy, Hys].
Qed.

Lemma error1_item (it : item) (w : world) :
  exists y w',
    error1 (item_value it) w = (Ret y, w')
    /\ source_message y = Some (item_alone it).
Proof.
  destruct it as [s | m]; simpl; now apply report_details_source.
Qed.

Lemma error2_item (prefix : string) (it : item) (w : world) :
  exists y w',
    error2 (VStr prefix) (item_value it) w = (Ret y, w')
    /\ source_message y = Some (item_prefixed prefix it).
Proof.
  destruct it as [s | m]; simpl item_value;
    rewrite error2_leaf_run by reflexivity; simpl;
    now apply report_details_source.
Qed.

Lemma error_supported (i : input) (w : world) :
  prebuilt i = true ->
  exists result w',
    error (arguments_of i) w = (Ret result, w')
    /\ Array_isArray result = is_sequence i
    /\ source_messages result = expected_messages i.
Proof.
  intros Hprebuilt.
  destruct i as [s | m | items | props | prefix m | prefix items];
    cbn [arguments_of is_sequence expected_messages error].
  - destruct (error1_item (ItemString s) w) as (y & w' & E & Hy).
    exists y, w'. split; [exact E |].
    destruct y; try discriminate Hy. unfold source_messages.
    now rewrite Hy.
  - destruct (error1_item (ItemError m) w) as (y & w' & E & Hy).
    exists y, w'. split; [exact E |].
    destruct y; try discriminate Hy. unfold source_messages.
    now rewrite Hy.
  - destruct (mapM_items error1 (fun it => Some (item_alone it))
                error1_item items w) as (ys & w' & E & Hys).
    exists (VArr ys), w'. rewrite error1_array. unfold bind. rewrite E.
    now split.
  - unfold prebuilt in Hprebuilt.
    destruct (source_message (VObj props)) as [s |] eqn:Hs;
      [| discriminate Hprebuilt].
    destruct (report_details_source (Object_assign_empty (Some props)) s w)
      as (y & w' & E & Hy).
    { now rewrite source_message_assign. }
    exists y, w'. split; [exact E |].
    destruct y; try discriminate Hy. unfold source_messages.
    now rewrite Hy.
  - destruct (error2_item prefix (ItemError m) w) as (y & w' & E & Hy).
    simpl item_value in E. exists y, w'. split; [exact E |].
    destruct y; try discriminate Hy. unfold source_messages.
    now rewrite Hy.
  - destruct (mapM_items (error2 (VStr prefix))
                (fun it => Some (item_prefixed prefix it))
                (error2_item prefix) items w) as (ys & w' & E & Hys).
    exists (VArr ys), w'. rewrite error2_array. unfold bind. rewrite E.
    now split.
Qed.

Lemma expected_nonempty (i : input) :
  forallb nonempty (expected_messages i) = nonempty_input i.
Proof.
  destruct i as [s | m | items | props | prefix m | prefix items]; simpl;
    rewrite ?andb_true_r; try reflexivity.
  - induction items as [| it items IH]; simpl; [reflexivity | now rewrite IH].
  - now rewrite prefixed_nonempty.
  - induction items as [| it items IH]; simpl; [reflexivity |].
    rewrite IH. destruct it; simpl; now rewrite prefixed_nonempty.
Qed.

End Messages.

(** C1, as amended: assume that [constructError] answers details that
    carry a source message with a structured error carrying the same source
    message.  Then for a single string, a single Error, a single array of
    strings or Errors, a single pre-built object that carries a context with
    a source message, and the two-argument forms (a string prefix with an
    Error or with an array), [error] returns one structured error, or for an
    array an ordered sequence of them, whose [context.sourceMessage] is the
    given string, the Error's message, the object's own source message, or
    the prefix, a blank and the message; it is a non-empty string always in
    the two-argument forms, and in the one-argument forms exactly when that
    string or message is non-empty. *)
Theorem error_source_messages (C : Collaborators)
  (Hkeep : keeps_source_message C) (i : input) (w : world)
  (Hprebuilt : prebuilt i = true) :
  exists result w',
    error (arguments_of i) w = (Ret result, w')
    /\ Array_isArray result = is_sequence i
    /\ source_messages result = expected_messages i
    /\ forallb nonempty (source_messages result) = nonempty_input i.
Proof.
  destruct (error_supported Hkeep i w Hprebuilt)
    as (result & w' & E & Hseq & Hmsg).
  exists result, w'. repeat split; try assumption.
  rewrite Hmsg. apply expected_nonempty.
Qed.

Lemma error_source_messages_witness :
  (exists result w',
      error (arguments_of
               (PrefixArray "Build failed" [ItemError "no such file"]))
        (fresh None) = (Ret result, w')
      /\ Array_isArray result = true
      /\ source_messages result = [Some "Build failed no such file"]
      /\ forallb nonempty (source_messages result) = true)
  /\ (exists result w',
         error (arguments_of
                  (OneObject
                     [("id", VStr "85901");
                      ("context",
                        VObj [("sourceMessage", VStr "Unknown field")])]))
           (fresh None) = (Ret result, w')
         /\ Array_isArray result = false
         /\ source_messages result = [Some "Unknown field"]
         /\ forallb nonempty (source_messages result) = true).
Proof.
  split.
  - exact (error_source_messages reference reference_keeps_source_message
             (PrefixArray "Build failed" [ItemError "no such file"])
             (fresh None) eq_refl).
  - exact (error_source_messages reference reference_keeps_source_message
             (OneObject
                [("id", VStr "85901");
                 ("context", VObj [("sourceMessage", VStr "Unknown field")])])
             (fresh None) eq_refl).
Defined.

(** C1 as stated fails: the empty string is a supported input, and
    [error("")] returns a structured error whose source message is the empty
    string. *)
Lemma error_empty_source_message :
  exists result w',
    error (collaborators := reference) (arguments_of (OneString ""))
      (fresh None) = (Ret result, w')
    /\ source_messages result = [Some ""]
    /\ forallb nonempty (source_messages result) = false.
Proof. eexists _, _. repeat split. Qed.

(** C2: with a prefix and an array of two Errors, [error] returns a sequence
    of two structured errors, in the array's order, the source message of
    each being the prefix, a blank, and the message of its Error. *)
Theorem error_prefix_two_errors (C : Collaborators)
  (Hkeep : keeps_source_message C)
  (prefix messageA messageB : string) (w : world) :
  exists first second w',
    error [VStr prefix; VArr [VError messageA; VError messageB]] w
    = (Ret (VArr [first; second]), w')
    /\ source_message first = Some ((prefix ++ " ") ++ messageA)%string
    /\ source_message second = Some ((prefix ++ " ") ++ messageB)%string.
Proof.
  destruct (mapM_items (error2 (VStr prefix))
              (fun it => Some (item_prefixed prefix it))
              (error2_item Hkeep prefix)
              [ItemError messageA; ItemError messageB] w)
    as (ys & w' & E & Hys).
  destruct ys as [| first [| second [| third ys]]]; try discriminate Hys.
  injection Hys as H1 H2. exists first, second, w'. split; [| now split].
  change (error [VStr prefix; VArr [VError messageA; VError messageB]] w)
    with ((results <- mapM (error2 (VStr prefix))
                        (List.map item_value
                           [ItemError messageA; ItemError messageB]) ;;
           ret (VArr results)) w).
  unfold bind. now rewrite E.
Qed.

Lemma error_prefix_two_errors_witness :
  exists first second w',
    error [VStr "Failed"; VArr [VError "A broke"; VError "B broke"]]
      (fresh None)
    = (Ret (VArr [first; second]), w')
    /\ source_message first = Some "Failed A broke"
    /\ source_message second = Some "Failed B broke".
Proof.
  exact (error_prefix_two_errors reference reference_keeps_source_message
           "Failed" "A broke" "B broke" (fresh None)).
Defined.

(** ** When [error] throws *)

(** [error] either runs its tail once on some details, or returns a
    sequence, or does not return. *)
Lemma error_cases `{Collaborators} (args : list value) (w : world) :
  (exists details, error args w = report_details details w)
  \/ (exists results w', error args w = (Ret (VArr results), w'))
  \/ (forall result w', error args w <> (Ret result, w')).
Proof.
  destruct args as [| errorMeta [| err [| extra rest]]]; simpl.
  - left. eauto.
  - destruct errorMeta as [| | b | s | m | items | props];
      try (left; simpl; eauto; fail).
    rewrite error1_array. unfold bind.
    destruct (mapM error1 items w) as [[ys | e | c] w1].
    + right; left. unfold ret. eauto.
    + right; right. intros result w'. discriminate.
    + right; right. intros result w'. discriminate.
  - destruct (Array_isArray err) eqn:Harr.
    + destruct err as [| | b | s | m | items | props]; try discriminate Harr.
      rewrite error2_array. unfold bind.
      destruct (mapM (error2 errorMeta) items w) as [[ys | e | c] w1].
      * right; left. unfold ret. eauto.
      * right; right. intros result w'. discriminate.
      * right; right. intros result w'. discriminate.
    + rewrite (error2_leaf_run _ _ _ Harr).
      destruct (toStr errorMeta) as [prefix |];
        [| right; right; intros result w'; discriminate].
      destruct err as [| | b | s | m | items | props]; try discriminate Harr;
        try (right; right; intros result w'; discriminate);
        (destruct (toStr (message_of _)) as [text |];
         [left; eauto | right; right; intros result w'; discriminate]).
  - left. eauto.
Qed.

(** [error] never ends the process. *)
Lemma error_never_exits `{Collaborators} (args : list value) (w : world) :
  forall code w', error args w <> (Exit code, w').
Proof.
  assert (Hdetails : forall details w0 code w',
            report_details details w0 <> (Exit code, w')).
  { intros details w0 code w'. unfold report_details, bind.
    destruct (truthy (constructError details)); simpl;
      destruct (constructError details); simpl; try discriminate;
      match goal with
      | |- context [truthy ?v] => destruct (truthy v); discriminate
      end. }
  assert (Hmap : forall (f : value -> M value) items,
            Forall (fun x => forall w0 code w', f x w0 <> (Exit code, w'))
              items ->
            forall w0 code w', mapM f items w0 <> (Exit code, w')).
  { intros f items Hitems. induction Hitems as [| x l Hx _ IH];
      intros w0 code w'; simpl; [discriminate |].
    unfold bind at 1. specialize (Hx w0).
    destruct (f x w0) as [[y | e | c] w1];
      [| discriminate | intros _; exact (Hx c w1 eq_refl)].
    unfold bind at 1. specialize (IH w1).
    destruct (mapM f l w1) as [[ys | e | c] w2];
      [discriminate | discriminate | intros _; exact (IH c w2 eq_refl)]. }
  assert (Harray : forall (f : value -> M value) items,
            Forall (fun x => forall w0 code w', f x w0 <> (Exit code, w'))
              items ->
            forall w0 code w',
              (results <- mapM f items ;; ret (VArr results)) w0
              <> (Exit code, w')).
  { intros f items Hitems w0 code w'. unfold bind at 1.
    pose proof (Hmap f items Hitems w0) as Hno.
    destruct (mapM f items w0) as [[ys | e | c] w1];
      [discriminate | discriminate | intros _; exact (Hno c w1 eq_refl)]. }
  assert (H1 : forall errorMeta w0 code w',
            error1 errorMeta w0 <> (Exit code, w')).
  { induction errorMeta as [| | b | s | m | items IH | props]
      using value_arr_ind; intros w0 code w';
      try (simpl; apply Hdetails).
    rewrite error1_array. now apply Harray. }
  assert (H2 : forall errorMeta err w0 code w',
            error2 errorMeta err w0 <> (Exit code, w')).
  { intros errorMeta err.
    induction err as [| | b | s | m | items IH | props] using value_arr_ind;
      intros w0 code w';
      try (rewrite error2_leaf_run by reflexivity;
           destruct (toStr errorMeta); try discriminate;
           try (destruct (toStr (message_of _)); try discriminate);
           apply Hdetails).
    rewrite error2_array. now apply Harray. }
  destruct args as [| errorMeta [| err [| extra rest]]]; intros code w'; simpl;
    auto.
Qed.

(** C8, as amended: for arguments built from [undefined], [null],
    booleans, strings, Errors, arrays and plain objects, and assuming that
    [constructError] answers with an object, [error] throws exactly when it
    is called with two arguments and the second one -- or, when that is an
    array, one of its elements at any depth -- is [null] or [undefined]
    (reading its [message] is a TypeError), or the first argument or that
    message is an object that cannot be made a string for the concatenation.
    On every other input it returns, and when it returns one structured
    error that carries no native error, the stack trace is not rendered: the
    backend gets the structured error and nothing else happens. *)
Theorem error_throws_or_returns (C : Collaborators)
  (Hobject : answers_object C) (args : list value) (w : world) :
  (throwing args = false -> exists result w', error args w = (Ret result, w'))
  /\ (throwing args = true -> exists e w', error args w = (Throw e, w'))
  /\ (forall result w',
         error args w = (Ret result, w') ->
         Array_isArray result = false ->
         truthy (native_error result) = false ->
         w' = emit (ReportError result) w).
Proof.
  destruct (error_returns_or_throws Hobject args w) as [Hret Hthrow].
  repeat split; try assumption.
  intros result w' E Hone Hnative.
  destruct (error_cases args w) as [(details & Ed) | [(ys & w1 & Ea) | Hno]].
  - destruct (report_details_returns Hobject details w) as (props & Ep).
    rewrite Ed, Ep in E. injection E as <- <-. unfold after_report.
    now rewrite Hnative.
  - rewrite Ea in E. injection E as <- <-. discriminate Hone.
  - now apply Hno in E.
Qed.

Lemma error_throws_or_returns_witness :
  (exists result w',
      error [VStr "done"] (fresh None) = (Ret result, w')
      /\ w' = emit (ReportError result) (fresh None))
  /\ (exists e w',
         error [VObj [("toString", VStr "x")]; VError "boom"] (fresh None)
         = (Throw e, w')).
Proof.
  pose (H1 := error_throws_or_returns reference reference_answers_object
                [VStr "done"] (fresh None)).
  pose (H2 := error_throws_or_returns reference reference_answers_object
                [VObj [("toString", VStr "x")]; VError "boom"] (fresh None)).
  split.
  - destruct (proj1 H1 eq_refl) as (result & w' & E).
    exists result, w'. split; [exact E |].
    apply (proj2 (proj2 H1) result w' E); now inversion E.
  - exact (proj1 (proj2 H2) eq_refl).
Defined.

(** C8 as stated fails: [error("Oops", null)] throws a TypeError. *)
Lemma error_null_throws :
  error (collaborators := reference) [VStr "Oops"; VNull] (fresh None)
  = (Throw (TypeError "Cannot read property 'message'"), fresh None).
Proof. reflexivity. Qed.

(** ** [panicOnBuild] *)

(** C3, as amended: [panicOnBuild] first calls [error] on its arguments.
    Whenever that call returns, [panicOnBuild] records one BUILD_PANIC
    telemetry event with the normalized error and then ends the process
    with status 1 if and only if [gatsby_executing_command] is ["build"];
    with any other value, or none, it returns.  Whenever [error] throws, the
    exception leaves [panicOnBuild], and neither the telemetry event nor the
    exit happens, in a build too.  [error] itself never ends the process. *)
Theorem panicOnBuild_exits_on_build (C : Collaborators) (args : list value)
  (w : world) :
  (forall err w1,
      error args w = (Ret err, w1) ->
      panicOnBuild args w
      = (if is_build (command w) then Exit 1 else Ret tt,
         emit (TrackError "BUILD_PANIC" err) w1))
  /\ (forall e w1,
         error args w = (Throw e, w1) -> panicOnBuild args w = (Throw e, w1))
  /\ (forall code w1, error args w <> (Exit code, w1))
  /\ (is_build (command w) = true <-> command w = Some "build").
Proof.
  split; [| split; [| split]].
  - intros err w1 E.
    pose proof (error_keeps_command args w) as Hcmd.
    rewrite E in Hcmd. simpl in Hcmd.
    unfold panicOnBuild. rewrite (bind_Ret _ _ _ _ _ E).
    unfold bind, trackError, modify, gets, process_exit, ret; simpl.
    rewrite Hcmd. unfold is_build.
    destruct (command w) as [c |]; [destruct (String.eqb c "build") |];
      reflexivity.
  - intros e w1 E. unfold panicOnBuild. now apply bind_Throw.
  - apply error_never_exits.
  - unfold is_build. destruct (command w) as [c |].
    + rewrite String.eqb_eq. split; congruence.
    + split; discriminate.
Qed.

Lemma panicOnBuild_exits_on_build_witness :
  (exists err w1,
      error [VStr "Oops"] (fresh (Some "build")) = (Ret err, w1)
      /\ panicOnBuild [VStr "Oops"] (fresh (Some "build"))
         = (Exit 1, emit (TrackError "BUILD_PANIC" err) w1))
  /\ (exists err w1,
         error [VStr "Oops"] (fresh (Some "develop")) = (Ret err, w1)
         /\ panicOnBuild [VStr "Oops"] (fresh (Some "develop"))
            = (Ret tt, emit (TrackError "BUILD_PANIC" err) w1))
  /\ (exists e w1,
         error [VStr "Oops"; VNull] (fresh (Some "build")) = (Throw e, w1)
         /\ panicOnBuild [VStr "Oops"; VNull] (fresh (Some "build"))
            = (Throw e, w1)).
Proof.
  split; [| split].
  - eexists _, _. split; [reflexivity |].
    exact (proj1 (panicOnBuild_exits_on_build reference [VStr "Oops"]
                    (fresh (Some "build"))) _ _ eq_refl).
  - eexists _, _. split; [reflexivity |].
    exact (proj1 (panicOnBuild_exits_on_build reference [VStr "Oops"]
                    (fresh (Some "develop"))) _ _ eq_refl).
  - eexists _, _. split; [reflexivity |].
    exact (proj1 (proj2 (panicOnBuild_exits_on_build reference
                           [VStr "Oops"; VNull] (fresh (Some "build"))))
             _ _ eq_refl).
Defined.

(** C3 as stated fails: in a build, [panicOnBuild("Oops", null)] neither
    records the telemetry event nor ends the process; the TypeError of
    [error] propagates. *)
Lemma panicOnBuild_null_throws :
  panicOnBuild (collaborators := reference) [VStr "Oops"; VNull]
    (fresh (Some "build"))
  = (Throw (TypeError "Cannot read property 'message'"),
     fresh (Some "build")).
Proof. reflexivity. Qed.

(** ** Spinner activities: [end] *)

Lemma alter_last {A} (f : A -> A) (l : list A) (x : A) :
  alter f (length l) (l ++ [x]) = l ++ [f x].
Proof.
  replace (length l) with (length l + 0)%nat by lia.
  now rewrite alter_app_r.
Qed.




(** A whole run computed through the doubles of convert-hrtime:
    [activityTimer("x")], [start()], 2.4996 seconds pass, [end()]. *)
Example spinner_run :
  (t <- activityTimer "x" None ;;
   t <- spinner_start t ;;
   modify (set_now (2, 499600000)) ;;
   spinner_end t) (fresh None)
  = (Ret tt,
     mkWorld (2, 499600000) None "0.000" false
       [mkActivity "x" spinner (Some "") (Some (0, 0)) None None true]
       [mkSpan "x" None 1]
       [TrackCli "ACTIVITY_DURATION" "x" 2500]).
Proof. vm_compute. reflexivity. Qed.

(** Beyond [2^53] nanoseconds the doubles of convert-hrtime lose the last
    digits: 17179869.184499999 seconds are reported as 17179869185
    milliseconds, one more than the nearest millisecond. *)
Example spinner_run_long :
  end_duration (0, 0) (17179869, 184499999) = 17179869185
  /\ rounded_milliseconds (0, 0) (17179869, 184499999) = 17179869184.
Proof. split; vm_compute; reflexivity. Qed.

(** ** [start] on the two kinds of tracker *)

(** C5: [start()] is guarded on a progress tracker and not on a spinner
    tracker.  On a progress tracker the first call records the current time
    with the backend and sets the guard; [tick], [setStatus] and the [total]
    setter leave the guard alone; and with the guard set, [start()] changes
    neither the tracker nor the world, so the recorded start time stays.  On
    a spinner tracker every call of [start()] sets [startTime] to the current
    time and sends it to the backend, whatever [startTime] was. *)
Theorem start_guarded_on_progress_only :
  (forall (t : ProgressTracker) (w : world),
      exists t',
        progress_start t w
        = (Ret t',
           if pr_hasStarted t then w
           else set_activities
                  (alter (apply_partial (PStartTime (now w))) (pr_activity t)
                     (activities w)) w)
        /\ pr_hasStarted t' = true)
  /\ (forall (span activity : nat) (current total : Z) (w : world),
         progress_start (mkProgressTracker span activity true current total) w
         = (Ret (mkProgressTracker span activity true current total), w))
  /\ (forall (t : ProgressTracker) (total : Z) (w : world),
         (exists t' w', progress_tick t w = (Ret t', w')
                        /\ pr_hasStarted t' = pr_hasStarted t)
         /\ (exists t' w', progress_set_total t total w = (Ret t', w')
                           /\ pr_hasStarted t' = pr_hasStarted t))
  /\ (forall (t : SpinnerTracker) (w : world),
         spinner_start t w
         = (Ret (mkSpinnerTracker (sp_name t) (sp_span t) (sp_activity t)
                   (Some (now w))),
            set_activities
              (alter (apply_partial (PStartTime (now w))) (sp_activity t)
                 (activities w)) w)).
Proof.
  split; [| split; [| split]].
  - intros t w. unfold progress_start.
    destruct (pr_hasStarted t) eqn:Hs.
    + exists t. now split.
    + eexists. split; reflexivity.
  - reflexivity.
  - intros t total w. split; eexists _, _; split; reflexivity.
  - reflexivity.
Qed.

(** Two calls of [start()] at different times, on a fresh tracker of each
    kind: the progress activity keeps the first time, the spinner activity
    takes the second. *)
Example start_twice :
  let twice {T} (create : M T) (start : T -> M T) : list Activity :=
    activities
      ((t <- create ;;
        modify (set_now (5, 0)) ;;
        t <- start t ;;
        modify (set_now (9, 0)) ;;
        start t) (fresh None)).2 in
  List.map act_startTime (twice (createProgress "y" 10 None None) progress_start)
  = [Some (5, 0)]
  /\ List.map act_startTime (twice (activityTimer "x" None) spinner_start)
     = [Some (9, 0)].
Proof. split; reflexivity. Qed.

(** ** Progress activities: [tick] *)

Lemma ticks_count (n : nat) :
  forall (t : ProgressTracker) (w : world),
    - 2 ^ 53 <= pr_current t ->
    pr_current t + Z.of_nat n <= 2 ^ 53 ->
    exists w',
      ticks n t w
      = (Ret (mkProgressTracker (pr_span t) (pr_activity t) (pr_hasStarted t)
                (pr_current t + Z.of_nat n) (pr_total t)), w')
      /\ forall a,
           activities w !! pr_activity t = Some a ->
           act_current a = Some (pr_current t) ->
           activities w' !! pr_activity t
           = Some (with_current (pr_current t + Z.of_nat n) a).
Proof.
  induction n as [| n IH]; intros t w Hlow Hhigh.
  - exists w. split.
    + simpl. rewrite Z.add_0_r. now destruct t.
    + intros a Ha Hc. rewrite Ha. f_equal. destruct a; simpl in *.
      unfold with_current; simpl. rewrite Z.add_0_r. now rewrite Hc.
  - set (t1 := mkProgressTracker (pr_span t) (pr_activity t) (pr_hasStarted t)
                 (pr_current t + 1) (pr_total t)).
    set (w1 := set_activities
                 (alter (apply_partial (PCurrent (pr_current t + 1)))
                    (pr_activity t) (activities w)) w).
    destruct (IH t1 w1) as (w' & E & Hact); [simpl; lia | simpl; lia |].
    exists w'.
    assert (Hn : pr_current t + 1 + Z.of_nat n = pr_current t + Z.of_nat (S n))
      by lia.
    assert (Hstep : ticks (S n) t w = ticks n t1 w1).
    { cbn [ticks]. unfold progress_tick, bind at 1, activity_update, modify.
      now rewrite js_increment_exact by lia. }
    split.
    + rewrite Hstep, E. simpl. now rewrite Hn.
    + intros a Ha Hc. simpl in Hact.
      rewrite (Hact (with_current (pr_current t + 1) a)).
      * unfold with_current; simpl. now rewrite Hn.
      * rewrite list_lookup_alter_eq, Ha. reflexivity.
      * reflexivity.
Qed.

(** C6, as amended: one call of [tick()] replaces the tracker's count by
    the count plus one, as doubles add, and sends the new count to the
    backend, whatever the total is.  Below [2^53] that is exactly one more:
    after [createProgress(name, total, start)] and [n] calls of [tick()]
    that stay within [2^53], the count is [start + n], in the tracker and in
    the backend's activity, also when that is more than [total] (for three
    calls, [start + 3]).  At [2^53] the count no longer moves. *)
Theorem tick_counts_without_bound :
  (forall (t : ProgressTracker) (w : world),
      progress_tick t w
      = (Ret (mkProgressTracker (pr_span t) (pr_activity t) (pr_hasStarted t)
                (js_increment (pr_current t)) (pr_total t)),
         set_activities
           (alter (apply_partial (PCurrent (js_increment (pr_current t))))
              (pr_activity t) (activities w)) w))
  /\ (forall current : Z,
         - 2 ^ 53 <= current < 2 ^ 53 -> js_increment current = current + 1)
  /\ js_increment (2 ^ 53) = 2 ^ 53
  /\ (forall (name : string) (total : Z) (start : option Z)
        (parentSpan : option nat) (n : nat) (w : world),
         - 2 ^ 53 <= default 0 start ->
         default 0 start + Z.of_nat n <= 2 ^ 53 ->
         exists t w1 t' w2,
           createProgress name total start parentSpan w = (Ret t, w1)
           /\ pr_current t = default 0 start
           /\ ticks n t w1 = (Ret t', w2)
           /\ pr_current t' = default 0 start + Z.of_nat n
           /\ activities w2 !! pr_activity t'
              = Some (mkActivity name progress None None
                        (Some (default 0 start + Z.of_nat n)) (Some total)
                        false)).
Proof.
  split; [reflexivity |]. split; [exact js_increment_exact |].
  split; [vm_compute; reflexivity |].
  intros name total start parentSpan n w Hlow Hhigh.
  set (a := mkActivity name progress None None (Some (default 0 start))
              (Some total) false).
  set (t := mkProgressTracker (length (spans w)) (length (activities w)) false
              (default 0 start) total).
  set (w1 := set_activities (activities w ++ [a])
               (set_spans (spans w ++ [mkSpan name parentSpan 0]) w)).
  destruct (ticks_count n t w1 Hlow Hhigh) as (w2 & E & Hact).
  eexists t, w1, _, w2. split; [reflexivity |]. split; [reflexivity |].
  split; [exact E |]. split; [reflexivity |].
  simpl. apply (Hact a); [| reflexivity].
  simpl. now apply list_lookup_middle.
Qed.

Lemma tick_counts_without_bound_witness :
  exists t w1 t' w2,
    createProgress "y" 10 (Some 9) None (fresh None) = (Ret t, w1)
    /\ pr_current t = 9
    /\ ticks 3 t w1 = (Ret t', w2)
    /\ pr_current t' = 12
    /\ activities w2 !! pr_activity t'
       = Some (mkActivity "y" progress None None (Some 12) (Some 10) false).
Proof.
  refine (proj2 (proj2 (proj2 tick_counts_without_bound)) "y" 10 (Some 9)
            None 3%nat (fresh None) _ _); simpl; lia.
Defined.

(** C6 as stated fails: from a starting count of [2^53], a call of
    [tick()] sends an update and leaves the count where it was. *)
Lemma tick_stops_counting :
  (t <- createProgress "y" 10 (Some 9007199254740992) None ;;
   progress_tick t) (fresh None)
  = (Ret (mkProgressTracker 0 0 false 9007199254740992 10),
     mkWorld (0, 0) None "0.000" false
       [mkActivity "y" progress None None (Some 9007199254740992) (Some 10)
          false]
       [mkSpan "y" None 0] []).
Proof. vm_compute. reflexivity. Qed.

(** Three ticks from a start of 9 with a total of 10. *)
Example three_ticks :
  (t <- createProgress "y" 10 (Some 9) None ;; ticks 3 t) (fresh None)
  = (Ret (mkProgressTracker 0 0 false 12 10),
     mkWorld (0, 0) None "0.000" false
       [mkActivity "y" progress None None (Some 12) (Some 10) false]
       [mkSpan "y" None 0] []).
Proof. vm_compute. reflexivity. Qed.

(** ** Activity ids *)

Lemma create_spec (f : factory) (name : string) (w : world) :
  exists a w',
    create f name w = (Ret (length (activities w)), w')
    /\ activities w' = activities w ++ [a]
    /\ act_id a = name /\ act_done a = false.
Proof.
  destruct f; eexists _, _; (split; [reflexivity |]); simpl; repeat split.
Qed.

Definition same_tables (w w' : world) : Prop :=
  activities w' = activities w /\ spans w' = spans w.

Lemma same_tables_refl (w : world) : same_tables w w.
Proof. now split. Qed.

Lemma same_tables_trans (a b c : world) :
  same_tables a b -> same_tables b c -> same_tables a c.
Proof. intros [H1 H2] [H3 H4]. split; congruence. Qed.

Lemma error_calls_same_tables `{Collaborators} (args : list value) :
  preserves same_tables (void (error args))
  /\ preserves same_tables (panic args)
  /\ preserves same_tables (panicOnBuild args).
Proof.
  pose proof same_tables_refl as Hrefl.
  pose proof same_tables_trans as Htrans.
  assert (Herror : preserves same_tables (error args)).
  { apply preserves_error; auto; intros; now split. }
  unfold void, panic, panicOnBuild, trackError.
  split; [| split]; stable; first [assumption | now split].
Qed.

(** What a call does to the backend's activities: a creation appends one,
    a tracker method updates the tracker's own or marks it done, and every
    other call leaves them as they are. *)
Lemma run_call_activities `{Collaborators} (c : call) (w : world) :
  match creates c with
  | Some (a, _) => activities (run_call c w).2 = activities w ++ [a]
  | None =>
      activities (run_call c w).2 = activities w
      \/ exists i f,
           own_activity c = Some i
           /\ activities (run_call c w).2 = alter f i (activities w)
           /\ forall a, act_id (f a) = act_id a
  end.
Proof.
  assert (Hupdate : forall p a, act_id (apply_partial p a) = act_id a)
    by (now intros []).
  destruct c as [b | b | args | args | args | prefix | v text | stage
                | name parent | t | t status | t | name total start parent
                | t | t status | t | t | t total];
    cbn [creates own_activity]; try (now left);
    try (right; eexists _, _; split; [reflexivity |];
         split; [reflexivity | first [apply Hupdate | reflexivity]]).
  - left. now destruct b as [[|] |].
  - left. destruct (error_calls_same_tables args) as (_ & Hp & _).
    now destruct (Hp w).
  - left. destruct (error_calls_same_tables args) as (_ & _ & Hb).
    now destruct (Hb w).
  - left. destruct (error_calls_same_tables args) as (He & _ & _).
    now destruct (He w).
  - left. simpl. unfold _setStage. now destruct reporterInstance_has_setStage.
  - reflexivity.
  - simpl. unfold spinner_end. destruct (sp_startTime t); [| now left].
    right. exists (sp_activity t), mark_done. repeat split.
  - reflexivity.
  - simpl. unfold progress_start. destruct (pr_hasStarted t); [now left |].
    right. eexists _, _. split; [reflexivity |].
    split; [reflexivity | apply Hupdate].
Qed.


(** Every activity of [w] is still there in [w'], under the same handle
    and with the same id. *)
Definition keeps_ids (w w' : world) : Prop :=
  forall h a,
    activities w !! h = Some a ->
    exists a', activities w' !! h = Some a' /\ act_id a' = act_id a.

Lemma keeps_ids_refl (w : world) : keeps_ids w w.
Proof. intros h a Ha. eauto. Qed.

Lemma keeps_ids_trans (a b c : world) :
  keeps_ids a b -> keeps_ids b c -> keeps_ids a c.
Proof.
  intros Hab Hbc h x Hx.
  destruct (Hab h x Hx) as (y & Hy & Ey).
  destruct (Hbc h y Hy) as (z & Hz & Ez).
  exists z. split; [exact Hz | congruence].
Qed.

Lemma run_call_keeps_ids `{Collaborators} (c : call) (w : world) :
  keeps_ids w (run_call c w).2.
Proof.
  intros h a Ha. pose proof (run_call_activities c w) as Hc.
  destruct (creates c) as [[a0 s0] |].
  - rewrite Hc. exists a. split; [| reflexivity].
    rewrite lookup_app_l; [exact Ha |]. now apply lookup_lt_Some in Ha.
  - destruct Hc as [Hc | (i & f & _ & Hc & Hf)]; rewrite Hc; [eauto |].
    destruct (decide (i = h)) as [-> | Hne].
    + exists (f a). rewrite list_lookup_alter_eq, Ha. split; [reflexivity |].
      apply Hf.
    + exists a. rewrite list_lookup_alter_ne by exact Hne. now split.
Qed.

Lemma step_keeps_ids `{Collaborators} (w w' : world) :
  step w w' -> keeps_ids w w'.
Proof.
  destruct 1 as [c w | t w | u w | c w];
    [apply run_call_keeps_ids | intros h a Ha; now exists a ..].
Qed.

Lemma later_keeps_ids `{Collaborators} (w w' : world) :
  later w w' -> keeps_ids w w'.
Proof.
  induction 1 as [w | w w1 w2 _ IH Hstep].
  - apply keeps_ids_refl.
  - eapply keeps_ids_trans; [exact IH | now apply step_keeps_ids].
Qed.

(** C9, as amended: the id of an activity is the name it was created
    under, and stays that name whatever is called afterwards; nothing makes
    ids unique.  Take any two activities of a run: the first created by
    either factory under [name1], the second created at any later moment
    under [name2].  Each factory call adds one activity, not yet done, under
    a handle that was free; at every later moment, whatever was called in
    between and since, the two activities are held under different handles
    and their ids are [name1] and [name2] (so the ids differ exactly when
    the names do); and every activity there was before is still there with
    the id it had. *)
Theorem activity_id_is_name (C : Collaborators) (f1 f2 : factory)
  (name1 name2 : string) (w v w' : world)
  (Hbetween : later (create f1 name1 w).2 v)
  (Hafter : later (create f2 name2 v).2 w') :
  exists h1 h2 a1 a2,
    (create f1 name1 w).1 = Ret h1
    /\ (create f2 name2 v).1 = Ret h2
    /\ activities w !! h1 = None
    /\ activities v !! h2 = None
    /\ (exists a, activities (create f1 name1 w).2 = activities w ++ [a]
                  /\ act_id a = name1 /\ act_done a = false)
    /\ (exists a, activities (create f2 name2 v).2 = activities v ++ [a]
                  /\ act_id a = name2 /\ act_done a = false)
    /\ h1 <> h2
    /\ activities w' !! h1 = Some a1
    /\ activities w' !! h2 = Some a2
    /\ act_id a1 = name1
    /\ act_id a2 = name2
    /\ (forall h a,
           activities w !! h = Some a ->
           exists a', activities w' !! h = Some a' /\ act_id a' = act_id a).
Proof.
  destruct (create_spec f1 name1 w) as (b1 & w1 & E1 & H1 & Hid1 & Hd1).
  destruct (create_spec f2 name2 v) as (b2 & w2 & E2 & H2 & Hid2 & Hd2).
  rewrite E1 in Hbetween. rewrite E2 in Hafter. simpl in Hbetween, Hafter.
  pose proof (later_keeps_ids _ _ Hbetween) as Kbetween.
  pose proof (later_keeps_ids _ _ Hafter) as Kafter.
  assert (Hb1 : activities w1 !! length (activities w) = Some b1)
    by (rewrite H1; now apply list_lookup_middle).
  assert (Hb2 : activities w2 !! length (activities v) = Some b2)
    by (rewrite H2; now apply list_lookup_middle).
  destruct (Kbetween _ _ Hb1) as (c1 & Hc1 & Ec1).
  assert (Hc1' : activities w2 !! length (activities w) = Some c1).
  { rewrite H2, lookup_app_l; [exact Hc1 |]. now apply lookup_lt_Some in Hc1. }
  destruct (Kafter _ _ Hc1') as (a1 & Ha1 & Ea1).
  destruct (Kafter _ _ Hb2) as (a2 & Ha2 & Ea2).
  exists (length (activities w)), (length (activities v)), a1, a2.
  rewrite E1, E2. simpl.
  split; [reflexivity |]. split; [reflexivity |].
  split; [apply lookup_ge_None; lia |].
  split; [apply lookup_ge_None; lia |].
  split; [now exists b1 |]. split; [now exists b2 |].
  split; [apply lookup_lt_Some in Hc1; lia |].
  split; [exact Ha1 |]. split; [exact Ha2 |].
  split; [congruence |]. split; [congruence |].
  intros h a Ha.
  assert (Hw1 : keeps_ids w w1).
  { intros h0 a0 Ha0. exists a0. split; [| reflexivity].
    rewrite H1, lookup_app_l; [exact Ha0 |]. now apply lookup_lt_Some in Ha0. }
  assert (Hw2 : keeps_ids v w2).
  { intros h0 a0 Ha0. exists a0. split; [| reflexivity].
    rewrite H2, lookup_app_l; [exact Ha0 |]. now apply lookup_lt_Some in Ha0. }
  exact (keeps_ids_trans _ _ _
           (keeps_ids_trans _ _ _
              (keeps_ids_trans _ _ _ Hw1 Kbetween) Hw2) Kafter h a Ha).
Qed.

Lemma activity_id_is_name_witness :
  let w1 := (create (Timer None) "source nodes" (fresh None)).2 in
  let v := (run_call (CallSpinnerStart (mkSpinnerTracker "source nodes" 0 0
                                          None)) w1).2 in
  let w2 := (create (Progress 10 None None) "run queries" v).2 in
  let w' := (run_call (CallSpinnerEnd (mkSpinnerTracker "source nodes" 0 0
                                         (Some (0, 0)))) w2).2 in
  exists a1 a2,
    activities w' !! 0%nat = Some a1
    /\ activities w' !! 1%nat = Some a2
    /\ act_id a1 = "source nodes"
    /\ act_id a2 = "run queries"
    /\ act_done a1 = true
    /\ act_done a2 = false.
Proof.
  intros w1 v w2 w'.
  destruct (activity_id_is_name reference (Timer None) (Progress 10 None None)
              "source nodes" "run queries" (fresh None) v w'
              (later_step _ _ _ (later_now _) (step_call _ _))
              (later_step _ _ _ (later_now _) (step_call _ _)))
    as (h1 & h2 & a1 & a2 & E1 & E2 & _ & _ & _ & _ & _ & H1 & H2 & I1 & I2
        & _).
  injection E1 as <-. injection E2 as <-.
  exists a1, a2. repeat split; try assumption.
  - vm_compute in H1. now injection H1 as <-.
  - vm_compute in H2. now injection H2 as <-.
Defined.

(** C9 as stated fails: a spinner and a progress bar created under the same
    name are live together under the same id. *)
Lemma same_name_same_id :
  exists h1 w1 h2 w2 a1 a2,
    create (Timer None) "source and transform nodes" (fresh None)
    = (Ret h1, w1)
    /\ create (Progress 10 None None) "source and transform nodes" w1
       = (Ret h2, w2)
    /\ h1 <> h2
    /\ activities w2 !! h1 = Some a1
    /\ activities w2 !! h2 = Some a2
    /\ act_done a1 = false /\ act_done a2 = false
    /\ act_id a1 = act_id a2.
Proof.
  eexists _, _, _, _, _, _. split; [reflexivity |]. split; [reflexivity |].
  split; [discriminate |]. repeat split.
Qed.

(** ** Colours *)

Lemma strip_esc_has_no_ansi (s : string) : has_ansi (strip_esc s) = false.
Proof.
  induction s as [| c s IH]; simpl; [reflexivity |].
  destruct (Ascii.eqb c esc) eqn:Hc; [exact IH |].
  simpl. now rewrite Hc, IH.
Qed.

Lemma reference_colourless_text : colourless_text reference.
Proof. intros e. apply strip_esc_has_no_ansi. Qed.

Section Colourless.
Context {C : Collaborators}.
Variable clean : string -> Prop.
Hypothesis Hclean : forall e, clean (errorFormatter_text true e).

Definition clean_render (ev : event) : Prop :=
  match ev with
  | Rendered _ text => clean text
  | _ => True
  end.

(** From a world whose formatter is colourless: the formatter is still
    colourless, and the trace grew by events whose renders are clean. *)
Definition stays_colourless (w w' : world) : Prop :=
  colorless w = true ->
  colorless w' = true
  /\ exists evs, trace w' = trace w ++ evs /\ Forall clean_render evs.

Lemma stays_refl (w : world) : stays_colourless w w.
Proof.
  intros Hc. split; [exact Hc |]. exists []. split; [| constructor].
  now rewrite app_nil_r.
Qed.

Lemma stays_trans (a b c : world) :
  stays_colourless a b -> stays_colourless b c -> stays_colourless a c.
Proof.
  intros Hab Hbc Ha.
  destruct (Hab Ha) as (Hb & evs1 & E1 & F1).
  destruct (Hbc Hb) as (Hc & evs2 & E2 & F2).
  split; [exact Hc |]. exists (evs1 ++ evs2). split.
  - now rewrite E2, E1, app_assoc.
  - now apply Forall_app.
Qed.

Lemma stays_same_trace (w w' : world) :
  trace w' = trace w -> colorless w' = colorless w \/ colorless w' = true ->
  stays_colourless w w'.
Proof.
  intros Ht Hc Hw. split; [destruct Hc; congruence |].
  exists []. split; [now rewrite app_nil_r | constructor].
Qed.

Lemma stays_emit (ev : event) (w : world) :
  clean_render ev -> stays_colourless w (emit ev w).
Proof.
  intros Hev Hw. split; [exact Hw |]. exists [ev]. split; [reflexivity |].
  now repeat constructor.
Qed.

Lemma run_call_stays (c : call) : preserves stays_colourless (run_call c).
Proof.
  apply preserves_run_call.
  - exact stays_refl.
  - exact stays_trans.
  - intros ev w Hev. apply stays_emit. now destruct ev.
  - intros e w Hw. apply stays_emit; [| exact Hw].
    simpl. rewrite Hw. apply Hclean.
  - intros w. apply stays_same_trace; [reflexivity | now right].
  - intros l w. apply stays_same_trace; [reflexivity | now left].
  - intros l w. apply stays_same_trace; [reflexivity | now left].
Qed.

Lemma step_stays (w w' : world) : step w w' -> stays_colourless w w'.
Proof.
  destruct 1 as [c w | t w | u w | c w].
  - apply run_call_stays.
  - apply stays_same_trace; [reflexivity | now left].
  - apply stays_same_trace; [reflexivity | now left].
  - apply stays_same_trace; [reflexivity | now left].
Qed.

Lemma later_stays (w w' : world) : later w w' -> stays_colourless w w'.
Proof.
  induction 1 as [w | w w1 w2 _ IH Hstep].
  - apply stays_refl.
  - eapply stays_trans; [exact IH | now apply step_stays].
Qed.

End Colourless.

(** C7: [setNoColor(true)] hands the flag to the backend's [setColors] and
    switches the error formatter to its colourless mode; in every world
    reached afterwards, by whatever calls, the formatter is still colourless
    and every error render made since contains no ANSI colour code. *)
Theorem setNoColor_renders_without_colours (C : Collaborators)
  (Htext : colourless_text C) (w w' : world)
  (Hlater : later (setNoColor (Some true) w).2 w') :
  (setNoColor (Some true) w).1 = Ret tt
  /\ trace (setNoColor (Some true) w).2
     = trace w ++ [SetColors true; WithoutColors]
  /\ colorless (setNoColor (Some true) w).2 = true
  /\ colorless w' = true
  /\ exists evs,
       trace w' = trace (setNoColor (Some true) w).2 ++ evs
       /\ forall error text,
            In (Rendered error text) evs -> has_ansi text = false.
Proof.
  split; [reflexivity |]. split.
  { simpl. now rewrite <- app_assoc. }
  split; [reflexivity |].
  destruct (later_stays (fun text => has_ansi text = false) Htext _ _ Hlater
              eq_refl) as (Hc & evs & E & Hevs).
  split; [exact Hc |]. exists evs. split; [exact E |].
  intros error text Hin. rewrite List.Forall_forall in Hevs.
  exact (Hevs _ Hin).
Qed.

Lemma setNoColor_renders_without_colours_witness :
  let w1 := (setNoColor (Some true) (fresh None)).2 in
  let w' := (run_call (CallError [VError "boom"]) w1).2 in
  (setNoColor (Some true) (fresh None)).1 = Ret tt
  /\ trace w1 = trace (fresh None) ++ [SetColors true; WithoutColors]
  /\ colorless w1 = true
  /\ colorless w' = true
  /\ exists evs,
       trace w' = trace w1 ++ evs
       /\ forall error text,
            In (Rendered error text) evs -> has_ansi text = false.
Proof.
  exact (setNoColor_renders_without_colours reference
           reference_colourless_text (fresh None) _
           (later_step _ _ _ (later_now _)
              (step_call (CallError [VError "boom"]) _))).
Defined.

(** C10: [setNoColor] calls [withoutColors()] exactly when its flag is
    true, and otherwise leaves the formatter as it is; nothing the reporter
    does switches the formatter back.  So once [setNoColor(true)] ran, the
    formatter is colourless in every later world, and still is after a
    further [setNoColor] with any flag, [false] included. *)
Theorem setNoColor_is_irreversible (C : Collaborators) (w w' : world)
  (Hlater : later (setNoColor (Some true) w).2 w') :
  setNoColor (Some true) w
  = (Ret tt, emit WithoutColors (set_colorless true (emit (SetColors true) w)))
  /\ (forall v, setNoColor (Some false) v = (Ret tt, emit (SetColors false) v))
  /\ (forall v, setNoColor None v = (Ret tt, emit (SetColors false) v))
  /\ colorless w' = true
  /\ forall isNoColor, colorless (setNoColor isNoColor w').2 = true.
Proof.
  split; [reflexivity |]. split; [reflexivity |]. split; [reflexivity |].
  destruct (later_stays (fun _ => True) (fun _ => I) _ _ Hlater eq_refl)
    as (Hc & _).
  split; [exact Hc |].
  intros [[|] |]; simpl; try exact Hc; reflexivity.
Qed.

Lemma setNoColor_is_irreversible_witness :
  let w := fresh None in
  let w' := (setNoColor (Some false) (setNoColor (Some true) w).2).2 in
  setNoColor (Some true) w
  = (Ret tt, emit WithoutColors (set_colorless true (emit (SetColors true) w)))
  /\ (forall v, setNoColor (Some false) v = (Ret tt, emit (SetColors false) v))
  /\ (forall v, setNoColor None v = (Ret tt, emit (SetColors false) v))
  /\ colorless w' = true
  /\ forall isNoColor, colorless (setNoColor isNoColor w').2 = true.
Proof.
  exact (setNoColor_is_irreversible reference (fresh None) _
           (later_step _ _ _ (later_now _)
              (step_call (CallSetNoColor (Some false)) _))).
Defined.

(** * Further properties of the reporter *)

(** ** What [error] does to the world *)

(** The world with more events in its trace and nothing else changed. *)
Definition add_events (evs : list event) (w : world) : world :=
  mkWorld (now w) (command w) (uptime_ms w) (colorless w) (activities w)
    (spans w) (trace w ++ evs).

(** The structured errors handed to [reporterInstance.error], in order. *)
Definition reported (evs : list event) : list value :=
  flat_map (fun ev => match ev with
                      | ReportError structuredError => [structuredError]
                      | _ => []
                      end) evs.

(** The structured errors of a result: the result itself, or the elements
    of the sequence, through nested sequences, from left to right. *)
Fixpoint leaves (result : value) : list value :=
  match result with
  | VArr results => flat_map leaves results
  | _ => [result]
  end.

(** The result is an array where the input is, with as many elements, and
    so on inside. *)
Fixpoint same_shape (x result : value) : bool :=
  match x with
  | VArr items =>
      match result with
      | VArr results =>
          (fix all2 (l rs : list value) : bool :=
             match l, rs with
             | [], [] => true
             | y :: l', r :: rs' => same_shape y r && all2 l' rs'
             | _, _ => false
             end) items results
      | _ => false
      end
  | _ => negb (Array_isArray result)
  end.

Fixpoint same_shapes (l rs : list value) : bool :=
  match l, rs with
  | [], [] => true
  | y :: l', r :: rs' => same_shape y r && same_shapes l' rs'
  | _, _ => false
  end.

(** The argument [error] normalizes: the only one, or the second of two. *)
Definition subject (args : list value) : value :=
  match args with
  | [x] => x
  | [_; x] => x
  | _ => VUndefined
  end.

Lemma add_events_nil (w : world) : add_events [] w = w.
Proof. destruct w. unfold add_events. simpl. now rewrite app_nil_r. Qed.

Lemma add_events_app (evs1 evs2 : list event) (w : world) :
  add_events evs2 (add_events evs1 w) = add_events (evs1 ++ evs2) w.
Proof. unfold add_events. simpl. now rewrite app_assoc. Qed.

Lemma emit_add_events (ev : event) (w : world) :
  emit ev w = add_events [ev] w.
Proof. reflexivity. Qed.

Lemma reported_app (evs1 evs2 : list event) :
  reported (evs1 ++ evs2) = reported evs1 ++ reported evs2.
Proof. apply flat_map_app. Qed.

Lemma same_shape_array (items results : list value) :
  same_shape (VArr items) (VArr results) = same_shapes items results.
Proof.
  revert results. induction items as [| y l IH]; intros [| r rs]; reflexivity.
Qed.

Lemma same_shapes_length (items results : list value) :
  same_shapes items results = true -> length results = length items.
Proof.
  revert results. induction items as [| y l IH]; intros [| r rs]; simpl;
    try discriminate; try reflexivity.
  intros H. apply andb_true_iff in H as [_ H]. now rewrite (IH rs H).
Qed.

Lemma existsb_false_Forall {A} (f : A -> bool) (l : list A) :
  existsb f l = false -> Forall (fun x => f x = false) l.
Proof.
  induction l as [| x l IH]; simpl; intros H; constructor;
    apply orb_false_iff in H as [Hx Hl]; auto.
Qed.

Section Normalizes.
Context {C : Collaborators}.

(** [f] returns on [x], adding events that report exactly the structured
    errors of the result, which has the shape of [x]. *)
Definition normalizes (f : value -> M value) (x : value) : Prop :=
  forall w, exists result evs,
    f x w = (Ret result, add_events evs w)
    /\ reported evs = leaves result
    /\ same_shape x result = true.

Lemma mapM_normalizes (f : value -> M value) (items : list value) :
  Forall (normalizes f) items ->
  forall w, exists results evs,
    mapM f items w = (Ret results, add_events evs w)
    /\ reported evs = flat_map leaves results
    /\ same_shapes items results = true.
Proof.
  induction 1 as [| x l Hx _ IH]; intros w; simpl.
  - exists [], []. rewrite add_events_nil. repeat split.
  - destruct (Hx w) as (r & evs1 & E1 & R1 & S1).
    destruct (IH (add_events evs1 w)) as (rs & evs2 & E2 & R2 & S2).
    exists (r :: rs), (evs1 ++ evs2).
    rewrite (bind_Ret _ _ _ _ _ E1), (bind_Ret _ _ _ _ _ E2).
    rewrite add_events_app, reported_app, R1, R2, S1, S2. repeat split.
Qed.

Lemma normalizes_array (f : value -> M value) (items : list value) :
  Forall (normalizes f) items ->
  forall w, exists result evs,
    (results <- mapM f items ;; ret (VArr results)) w
    = (Ret result, add_events evs w)
    /\ reported evs = leaves result
    /\ same_shape (VArr items) result = true.
Proof.
  intros Hitems w.
  destruct (mapM_normalizes f items Hitems w) as (rs & evs & E & R & S).
  exists (VArr rs), evs. rewrite (bind_Ret _ _ _ _ _ E).
  rewrite same_shape_array. repeat split; assumption.
Qed.

Hypothesis Hobject : answers_object C.

Lemma report_details_events (details : obj) (w : world) :
  exists result evs,
    report_details details w = (Ret result, add_events evs w)
    /\ reported evs = [result]
    /\ Array_isArray result = false.
Proof.
  destruct (report_details_returns Hobject details w) as (props & E).
  rewrite E. unfold after_report.
  destruct (truthy (native_error (VObj props)));
    rewrite !emit_add_events, ?add_events_app;
    eexists _, _; (split; [reflexivity |]); split; reflexivity.
Qed.

Lemma report_details_normalizes (details : obj) (x : value) (w : world) :
  Array_isArray x = false ->
  exists result evs,
    report_details details w = (Ret result, add_events evs w)
    /\ reported evs = leaves result
    /\ same_shape x result = true.
Proof.
  intros Hx. destruct (report_details_events details w)
    as (result & evs & E & R & Hr).
  exists result, evs. split; [exact E |]. split.
  - rewrite R. now destruct result.
  - destruct x; try discriminate Hx; simpl; now rewrite Hr.
Qed.

Lemma error1_normalizes (errorMeta : value) : normalizes error1 errorMeta.
Proof.
  induction errorMeta as [| | b | s | m | items IH | props] using value_arr_ind;
    try (intros w; simpl error1; now apply report_details_normalizes).
  intros w. rewrite error1_array. now apply normalizes_array.
Qed.

Lemma error2_normalizes (errorMeta error : value) :
  throws2 errorMeta error = false -> normalizes (error2 errorMeta) error.
Proof.
  induction error as [| | b | s | m | items IH | props] using value_arr_ind;
    intros Hn;
    try (intros w;
         match goal with
         | |- context [error2 errorMeta ?x w] =>
             destruct (error2_leaf errorMeta x w eq_refl) as [Hret _];
             destruct (Hret Hn) as (prefix & text & _ & _ & E); rewrite E;
             exact (report_details_normalizes _ x w eq_refl)
         end).
  intros w. rewrite error2_array. apply normalizes_array.
  apply existsb_false_Forall in Hn.
  clear w. induction IH as [| x l Hx _ IHl]; constructor;
    inversion Hn; subst; auto.
Qed.

Lemma error_normalizes (args : list value) (w : world) :
  throwing args = false ->
  exists result evs,
    error args w = (Ret result, add_events evs w)
    /\ reported evs = leaves result
    /\ same_shape (subject args) result = true.
Proof.
  destruct args as [| errorMeta [| err [| extra rest]]]; intros Hn.
  - exact (report_details_normalizes _ VUndefined w eq_refl).
  - apply error1_normalizes.
  - now apply error2_normalizes.
  - exact (report_details_normalizes _ VUndefined w eq_refl).
Qed.

End Normalizes.

(** The arguments [error] has no branch for: none at all, three or more, or
    a single [undefined] or boolean; and a single [null], which the branch
    for objects copies into empty details. *)
Definition unsupported (args : list value) : bool :=
  match args with
  | [] => true
  | [VUndefined] | [VNull] | [VBool _] => true
  | [_] | [_; _] => false
  | _ => true
  end.

(** [null] or [undefined]. *)
Definition nullish (isUndefined : bool) : value :=
  if isUndefined then VUndefined else VNull.

Lemma mapM_app {A B} (f : A -> M B) (l1 l2 : list A) :
  forall w ys w1,
    mapM f l1 w = (Ret ys, w1) ->
    mapM f (l1 ++ l2) w = (zs <- mapM f l2 ;; ret (ys ++ zs)) w1.
Proof.
  induction l1 as [| x l1 IH]; intros w ys w1 E; simpl in *.
  - injection E as <- <-. unfold bind, ret.
    now destruct (mapM f l2 w) as [[zs | e | c] w2].
  - unfold bind at 1 in E. unfold bind at 1.
    destruct (f x w) as [[y | e | c] w2]; try discriminate E.
    unfold bind at 1 in E. unfold bind at 1.
    destruct (mapM f l1 w2) as [[ys1 | e | c] w3] eqn:E1; try discriminate E.
    injection E as <- <-. rewrite (IH _ _ _ E1).
    unfold bind, ret. now destruct (mapM f l2 w3) as [[zs | e | c] w4].
Qed.

(** X1: assume that [constructError] answers with an object.  Whenever
    [error] returns, every structured error in its result -- the one result,
    or the elements of the sequence through nested sequences, from left to
    right -- was handed to [reporterInstance.error] exactly once, in that
    order, and nothing but the trace of the world changed. *)
Theorem error_reports_each_result (C : Collaborators)
  (Hobject : answers_object C) (args : list value) (w : world)
  (result : value) (w' : world)
  (Hreturns : error args w = (Ret result, w')) :
  exists evs, w' = add_events evs w /\ reported evs = leaves result.
Proof.
  destruct (throwing args) eqn:Hn.
  - destruct (proj2 (error_returns_or_throws Hobject args w) Hn)
      as (e & w1 & E).
    rewrite E in Hreturns. discriminate Hreturns.
  - destruct (error_normalizes Hobject args w Hn) as (r & evs & E & R & _).
    rewrite E in Hreturns. injection Hreturns as <- <-. now exists evs.
Qed.

Lemma error_reports_each_result_witness :
  exists result w' evs,
    error [VStr "Failed"; VArr [VError "a"; VArr [VStr "b"]; VError "c"]]
      (fresh None)
    = (Ret result, w')
    /\ w' = add_events evs (fresh None)
    /\ reported evs = leaves result
    /\ length evs = 9%nat.
Proof.
  assert (E : exists result w',
            error
              [VStr "Failed"; VArr [VError "a"; VArr [VStr "b"]; VError "c"]]
              (fresh None)
            = (Ret result, w')
            /\ length (trace w') = 9%nat).
  { eexists _, _. split; vm_compute; reflexivity. }
  destruct E as (result & w' & E & Hlen).
  destruct (error_reports_each_result reference reference_answers_object
              _ _ _ _ E) as (evs & Hw & Hr).
  exists result, w', evs. repeat split; try assumption.
  now rewrite Hw in Hlen.
Defined.

(** X2: assume that [constructError] answers with an object.  Whenever
    [error] returns, its result has the shape of the argument it normalized
    (the only argument, or the second of two): one structured error for
    anything that is not an array, and for an array a sequence with as many
    elements, each shaped like its element, at any depth. *)
Theorem error_keeps_shape (C : Collaborators) (Hobject : answers_object C)
  (args : list value) (w : world) (result : value) (w' : world)
  (Hreturns : error args w = (Ret result, w')) :
  same_shape (subject args) result = true
  /\ (forall items,
         subject args = VArr items ->
         exists results,
           result = VArr results /\ length results = length items)
  /\ (Array_isArray (subject args) = false ->
      Array_isArray result = false).
Proof.
  assert (S : same_shape (subject args) result = true).
  { destruct (throwing args) eqn:Hn.
    - destruct (proj2 (error_returns_or_throws Hobject args w) Hn)
        as (e & w1 & E).
      rewrite E in Hreturns. discriminate Hreturns.
    - destruct (error_normalizes Hobject args w Hn) as (r & evs & E & _ & S).
      rewrite E in Hreturns. now injection Hreturns as <- <-. }
  split; [exact S |]. split.
  - intros items Hitems. rewrite Hitems in S.
    destruct result as [| | b | s | m | results | props]; try discriminate S.
    exists results. split; [reflexivity |].
    rewrite same_shape_array in S. now apply same_shapes_length.
  - intros Hx. destruct (subject args); try discriminate Hx; simpl in S;
      now apply negb_true_iff in S.
Qed.

Lemma error_keeps_shape_witness :
  exists result w' first second,
    error [VArr [VStr "a"; VArr [VError "b"; VStr "c"]]] (fresh None)
    = (Ret result, w')
    /\ result = VArr [first; second]
    /\ Array_isArray first = false
    /\ Array_isArray second = true.
Proof.
  assert (E : exists result w' first second,
            error [VArr [VStr "a"; VArr [VError "b"; VStr "c"]]] (fresh None)
            = (Ret result, w')
            /\ result = VArr [first; second]
            /\ Array_isArray first = false).
  { eexists _, _, _, _. repeat split; vm_compute; reflexivity. }
  destruct E as (result & w' & first & second & E & Hresult & Hfirst).
  destruct (error_keeps_shape reference reference_answers_object _ _ _ _ E)
    as (S & _ & _).
  exists result, w', first, second. repeat split; try assumption.
  rewrite Hresult in S. simpl in S.
  destruct second; try reflexivity; simpl in S;
    rewrite ?andb_false_r in S; discriminate S.
Defined.

(** X3: assume that [constructError] answers with an object.  In the
    two-argument form, an array is worked through from the left and
    abandoned at the first [null] or [undefined] element: the call throws,
    the elements before it (on which [error] does not throw) have been
    normalized and reported -- the world is the one [error] leaves for those
    elements alone -- and the elements after it are never looked at. *)
Theorem error_stops_at_nullish (C : Collaborators)
  (Hobject : answers_object C) (errorMeta : value)
  (before after : list value) (isUndefined : bool) (w : world)
  (Hbefore : existsb (throws2 errorMeta) before = false) :
  exists results w1 e,
    error [errorMeta; VArr before] w = (Ret (VArr results), w1)
    /\ length results = length before
    /\ error [errorMeta; VArr (before ++ nullish isUndefined :: after)] w
       = (Throw e, w1).
Proof.
  assert (Hall : Forall (normalizes (error2 errorMeta)) before).
  { apply existsb_false_Forall in Hbefore.
    eapply Forall_impl; [exact Hbefore |]. intros x Hx.
    now apply error2_normalizes. }
  destruct (mapM_normalizes _ _ Hall w) as (rs & evs & E & _ & S).
  destruct (error2_leaf errorMeta (nullish isUndefined) (add_events evs w))
    as [_ Hthrow]; [now destruct isUndefined |].
  destruct Hthrow as (e & Ethrow); [now destruct isUndefined |].
  exists rs, (add_events evs w), e.
  change (error [errorMeta; VArr before] w)
    with (error2 errorMeta (VArr before) w).
  change (error [errorMeta; VArr (before ++ nullish isUndefined :: after)] w)
    with (error2 errorMeta (VArr (before ++ nullish isUndefined :: after)) w).
  rewrite !error2_array. split; [| split].
  - now rewrite (bind_Ret _ _ _ _ _ E).
  - now apply same_shapes_length.
  - unfold bind at 1. rewrite (mapM_app _ _ _ _ _ _ E).
    cbn [mapM]. unfold bind at 1, bind at 1. now rewrite Ethrow.
Qed.

Lemma error_stops_at_nullish_witness :
  exists results w1 e,
    error [VStr "Failed"; VArr [VError "a"]] (fresh None)
    = (Ret (VArr results), w1)
    /\ length results = 1%nat
    /\ error [VStr "Failed"; VArr ([VError "a"] ++ VNull :: [VError "b"])]
         (fresh None)
       = (Throw e, w1).
Proof.
  exact (error_stops_at_nullish reference reference_answers_object
           (VStr "Failed") [VError "a"] [VError "b"] false (fresh None)
           eq_refl).
Defined.

(** X4: [error] has no branch for a call without arguments, with three or
    more arguments, or with a single [undefined] or boolean, and the branch
    for objects copies a single [null] into an empty object: every such call
    does what [error()] does, that is, the arguments are ignored and the
    tail of [error] runs on empty details. *)
Theorem error_ignores_unsupported (C : Collaborators) (args : list value)
  (w : world) (Hargs : unsupported args = true) :
  error args w = error [] w
  /\ error args w = report_details [] w.
Proof.
  assert (E : error args w = error [] w).
  { destruct args as [| x [| y [| z rest]]]; try reflexivity.
    - now destruct x.
    - destruct x; discriminate Hargs. }
  split; [exact E |]. rewrite E. reflexivity.
Qed.

Lemma error_ignores_unsupported_witness :
  (error [VStr "Failed"; VError "boom"; VStr "hint"] (fresh None)
   = error [] (fresh None)
   /\ error [VStr "Failed"; VError "boom"; VStr "hint"] (fresh None)
      = report_details [] (fresh None))
  /\ (error [VNull] (fresh None) = error [] (fresh None)
      /\ error [VNull] (fresh None) = report_details [] (fresh None)).
Proof.
  split.
  - exact (error_ignores_unsupported reference
             [VStr "Failed"; VError "boom"; VStr "hint"] (fresh None)
             eq_refl).
  - exact (error_ignores_unsupported reference [VNull] (fresh None) eq_refl).
Defined.

(** X5: [panic] never returns to its caller.  Whenever [error] returns,
    [panic] records one GENERAL_PANIC telemetry event with the normalized
    error and ends the process with status 1, whatever the executing command
    is; whenever [error] throws, the exception leaves [panic] and neither
    the telemetry event nor the exit happens. *)
Theorem panic_always_exits (C : Collaborators) (args : list value)
  (w : world) :
  (forall u w', panic args w <> (Ret u, w'))
  /\ (forall err w1,
         error args w = (Ret err, w1) ->
         panic args w = (Exit 1, emit (TrackError "GENERAL_PANIC" err) w1))
  /\ (forall e w1,
         error args w = (Throw e, w1) -> panic args w = (Throw e, w1)).
Proof.
  split; [| split].
  - intros u w'. unfold panic, bind.
    destruct (error args w) as [[err | e | c] w1]; discriminate.
  - intros err w1 E. unfold panic. now rewrite (bind_Ret _ _ _ _ _ E).
  - intros e w1 E. unfold panic. now apply bind_Throw.
Qed.

Lemma panic_always_exits_witness :
  (exists err w1,
      error [VError "boom"] (fresh (Some "develop")) = (Ret err, w1)
      /\ panic [VError "boom"] (fresh (Some "develop"))
         = (Exit 1, emit (TrackError "GENERAL_PANIC" err) w1))
  /\ (exists e w1,
         error [VStr "Oops"; VUndefined] (fresh (Some "develop"))
         = (Throw e, w1)
         /\ panic [VStr "Oops"; VUndefined] (fresh (Some "develop"))
            = (Throw e, w1)).
Proof.
  split.
  - eexists _, _. split; [reflexivity |].
    exact (proj1 (proj2 (panic_always_exits reference [VError "boom"]
                           (fresh (Some "develop")))) _ _ eq_refl).
  - eexists _, _. split; [reflexivity |].
    exact (proj2 (proj2 (panic_always_exits reference
                           [VStr "Oops"; VUndefined]
                           (fresh (Some "develop")))) _ _ eq_refl).
Defined.

(** ** Sequences of tracker methods *)

(** What a caller can do with a progress tracker before [done()], and the
    clock moving on in between. *)
Inductive progress_method : Type :=
| PStart
| PSetStatus (status : string)
| PTick
| PSetTotal (total : Z)
| PWait (until : hrtime).

Definition progress_method_run (m : progress_method) (t : ProgressTracker)
  : M ProgressTracker :=
  match m with
  | PStart => progress_start t
  | PSetStatus status => progress_setStatus t status ;; ret t
  | PTick => progress_tick t
  | PSetTotal total => progress_set_total t total
  | PWait until => modify (set_now until) ;; ret t
  end.

Fixpoint progress_methods (ms : list progress_method) (t : ProgressTracker)
  : M ProgressTracker :=
  match ms with
  | [] => ret t
  | m :: rest => t' <- progress_method_run m t ;; progress_methods rest t'
  end.

(** The number of [tick()] calls. *)
Fixpoint count_ticks (ms : list progress_method) : Z :=
  match ms with
  | [] => 0
  | PTick :: rest => 1 + count_ticks rest
  | _ :: rest => count_ticks rest
  end.

(** The count after the sequence, from [current]. *)
Fixpoint count_after (ms : list progress_method) (current : Z) : Z :=
  match ms with
  | [] => current
  | PTick :: rest => count_after rest (js_increment current)
  | _ :: rest => count_after rest current
  end.

(** The total last assigned, [total] if none was. *)
Fixpoint last_total (ms : list progress_method) (total : Z) : Z :=
  match ms with
  | [] => total
  | PSetTotal v :: rest => last_total rest v
  | _ :: rest => last_total rest total
  end.

(** The status last set, [status] if none was. *)
Fixpoint last_progress_status (ms : list progress_method)
  (status : option string) : option string :=
  match ms with
  | [] => status
  | PSetStatus s :: rest => last_progress_status rest (Some s)
  | _ :: rest => last_progress_status rest status
  end.

(** The clock at the first [start()], the clock being at [clock] now. *)
Fixpoint first_start (ms : list progress_method) (clock : hrtime)
  : option hrtime :=
  match ms with
  | [] => None
  | PStart :: _ => Some clock
  | PWait until :: rest => first_start rest until
  | _ :: rest => first_start rest clock
  end.

(** The clock after the sequence. *)
Fixpoint progress_clock (ms : list progress_method) (clock : hrtime)
  : hrtime :=
  match ms with
  | [] => clock
  | PWait until :: rest => progress_clock rest until
  | _ :: rest => progress_clock rest clock
  end.

Definition is_PStart (m : progress_method) : bool :=
  match m with
  | PStart => true
  | _ => false
  end.

(** The start time the backend holds after the sequence, when it held
    [recorded] before and the guard was [hasStarted]. *)
Definition recorded_start (ms : list progress_method) (hasStarted : bool)
  (clock : hrtime) (recorded : option hrtime) : option hrtime :=
  if hasStarted then recorded
  else match first_start ms clock with
       | Some t => Some t
       | None => recorded
       end.

Lemma count_ticks_nonneg (ms : list progress_method) : 0 <= count_ticks ms.
Proof. induction ms as [| [] ms IH]; simpl; lia. Qed.

(** Within [2^53] every tick counts. *)
Lemma count_after_exact (ms : list progress_method) :
  forall current : Z,
    - 2 ^ 53 <= current ->
    current + count_ticks ms <= 2 ^ 53 ->
    count_after ms current = current + count_ticks ms.
Proof.
  induction ms as [| m ms IH]; intros current Hlow Hhigh; simpl in *;
    [lia |].
  pose proof (count_ticks_nonneg ms) as Hms.
  destruct m; try (now apply IH).
  rewrite js_increment_exact by lia. rewrite IH by lia. lia.
Qed.

Lemma progress_methods_run (ms : list progress_method) :
  forall (l : list Activity) (id : string) (kind : activity_kind)
    (status : option string) (recorded : option hrtime) (isDone : bool)
    (span : nat) (hasStarted : bool) (current total : Z) (w : world),
    activities w
    = l ++ [mkActivity id kind status recorded (Some current) (Some total)
              isDone] ->
    progress_methods ms
      (mkProgressTracker span (length l) hasStarted current total) w
    = (Ret (mkProgressTracker span (length l)
              (hasStarted || existsb is_PStart ms)
              (count_after ms current) (last_total ms total)),
       set_now (progress_clock ms (now w))
         (set_activities
            (l ++ [mkActivity id kind (last_progress_status ms status)
                     (recorded_start ms hasStarted (now w) recorded)
                     (Some (count_after ms current))
                     (Some (last_total ms total)) isDone]) w)).
Proof.
  induction ms as [| m ms IH];
    intros l id kind status recorded isDone span hasStarted current total w H.
  - simpl. unfold ret, recorded_start. rewrite orb_false_r.
    destruct w; simpl in *; subst. now destruct hasStarted.
  - destruct m as [| s | | v | until].
    + destruct hasStarted.
      * change (progress_methods (PStart :: ms)
                  (mkProgressTracker span (length l) true current total) w)
          with (progress_methods ms
                  (mkProgressTracker span (length l) true current total) w).
        now rewrite (IH l id kind status recorded isDone span true current
                       total w H).
      * change (progress_methods (PStart :: ms)
                  (mkProgressTracker span (length l) false current total) w)
          with (progress_methods ms
                  (mkProgressTracker span (length l) true current total)
                  (set_activities
                     (alter (apply_partial (PStartTime (now w))) (length l)
                        (activities w)) w)).
        rewrite H, alter_last.
        now erewrite IH by reflexivity.
    + change (progress_methods (PSetStatus s :: ms)
                (mkProgressTracker span (length l) hasStarted current total) w)
        with (progress_methods ms
                (mkProgressTracker span (length l) hasStarted current total)
                (set_activities
                   (alter (apply_partial (PStatus s)) (length l)
                      (activities w)) w)).
      rewrite H, alter_last.
      now erewrite IH by reflexivity.
    + change (progress_methods (PTick :: ms)
                (mkProgressTracker span (length l) hasStarted current total) w)
        with (progress_methods ms
                (mkProgressTracker span (length l) hasStarted
                   (js_increment current) total)
                (set_activities
                   (alter (apply_partial (PCurrent (js_increment current)))
                      (length l) (activities w)) w)).
      rewrite H, alter_last.
      now erewrite IH by reflexivity.
    + change (progress_methods (PSetTotal v :: ms)
                (mkProgressTracker span (length l) hasStarted current total) w)
        with (progress_methods ms
                (mkProgressTracker span (length l) hasStarted current v)
                (set_activities
                   (alter (apply_partial (PTotal v)) (length l)
                      (activities w)) w)).
      rewrite H, alter_last.
      now erewrite IH by reflexivity.
    + change (progress_methods (PWait until :: ms)
                (mkProgressTracker span (length l) hasStarted current total) w)
        with (progress_methods ms
                (mkProgressTracker span (length l) hasStarted current total)
                (set_now until w)).
      now rewrite (IH l id kind status recorded isDone span hasStarted
                     current total (set_now until w) H).
Qed.

(** X6: a progress bar from [createProgress] to [done()], with any
    sequence of [start], [setStatus], [tick] and assignments to [total] in
    between, in any order and with the clock moving, the counts staying
    within [2^53]: the backend ends up with one more activity, done, whose
    count is the start count plus the number of ticks, whose total is the
    last one assigned, whose status is the last one set, and whose start
    time is the time of the first [start()]; the span is finished once; and
    no telemetry, and nothing else, is emitted. *)
Theorem progress_lifecycle (name : string) (total : Z) (start : option Z)
  (parentSpan : option nat) (ms : list progress_method) (w : world)
  (Hlow : - 2 ^ 53 <= default 0 start)
  (Hhigh : default 0 start + count_ticks ms <= 2 ^ 53) :
  (t <- createProgress name total start parentSpan ;;
   t <- progress_methods ms t ;;
   progress_done t) w
  = (Ret tt,
     mkWorld (progress_clock ms (now w)) (command w) (uptime_ms w)
       (colorless w)
       (activities w
        ++ [mkActivity name progress (last_progress_status ms None)
              (first_start ms (now w))
              (Some (default 0 start + count_ticks ms))
              (Some (last_total ms total)) true])
       (spans w ++ [mkSpan name parentSpan 1])
       (trace w)).
Proof.
  unfold bind at 1. unfold createProgress at 1.
  cbv [bind tracer_startSpan reporterInstance_createActivity ret].
  cbn [spans activities set_spans set_activities].
  erewrite progress_methods_run by reflexivity.
  rewrite (count_after_exact ms _ Hlow Hhigh).
  cbv [progress_done bind span_finish activity_done modify pr_span pr_activity
       set_now set_activities set_spans now command uptime_ms colorless
       activities spans trace recorded_start].
  rewrite !alter_last. unfold mark_done, finish_span. simpl.
  now destruct (first_start ms (let (n, _, _, _, _, _, _) := w in n)).
Qed.

Lemma progress_lifecycle_witness :
  (t <- createProgress "y" 2 None None ;;
   t <- progress_methods
          [PWait (1, 0); PStart; PTick; PSetStatus "half"; PSetTotal 3;
           PWait (2, 0); PStart; PTick; PTick; PTick] t ;;
   progress_done t) (fresh None)
  = (Ret tt,
     mkWorld (2, 0) None "0.000" false
       [mkActivity "y" progress (Some "half") (Some (1, 0)) (Some 4) (Some 3)
          true]
       [mkSpan "y" None 1] []).
Proof.
  refine (progress_lifecycle "y" 2 None None
            [PWait (1, 0); PStart; PTick; PSetStatus "half"; PSetTotal 3;
             PWait (2, 0); PStart; PTick; PTick; PTick] (fresh None) _ _);
    simpl; lia.
Defined.


(** What a caller can do with a spinner tracker before [end()], and the
    clock moving on in between. *)
Inductive spinner_method : Type :=
| SStart
| SSetStatus (status : string)
| SWait (until : hrtime).

Definition spinner_method_run (m : spinner_method) (t : SpinnerTracker)
  : M SpinnerTracker :=
  match m with
  | SStart => spinner_start t
  | SSetStatus status => spinner_setStatus t status ;; ret t
  | SWait until => modify (set_now until) ;; ret t
  end.

Fixpoint spinner_methods (ms : list spinner_method) (t : SpinnerTracker)
  : M SpinnerTracker :=
  match ms with
  | [] => ret t
  | m :: rest => t' <- spinner_method_run m t ;; spinner_methods rest t'
  end.

(** The clock at the last [start()], [started] if there is none. *)
Fixpoint last_start (ms : list spinner_method) (clock : hrtime)
  (started : option hrtime) : option hrtime :=
  match ms with
  | [] => started
  | SStart :: rest => last_start rest clock (Some clock)
  | SSetStatus _ :: rest => last_start rest clock started
  | SWait until :: rest => last_start rest until started
  end.

Fixpoint last_spinner_status (ms : list spinner_method)
  (status : option string) : option string :=
  match ms with
  | [] => status
  | SSetStatus s :: rest => last_spinner_status rest (Some s)
  | _ :: rest => last_spinner_status rest status
  end.

Fixpoint spinner_clock (ms : list spinner_method) (clock : hrtime) : hrtime :=
  match ms with
  | [] => clock
  | SWait until :: rest => spinner_clock rest until
  | _ :: rest => spinner_clock rest clock
  end.

Lemma spinner_methods_run (ms : list spinner_method) :
  forall (l : list Activity) (id : string) (kind : activity_kind)
    (status : option string) (started : option hrtime)
    (current total : option Z) (isDone : bool) (name : string) (span : nat)
    (w : world),
    activities w
    = l ++ [mkActivity id kind status started current total isDone] ->
    spinner_methods ms (mkSpinnerTracker name span (length l) started) w
    = (Ret (mkSpinnerTracker name span (length l)
              (last_start ms (now w) started)),
       set_now (spinner_clock ms (now w))
         (set_activities
            (l ++ [mkActivity id kind (last_spinner_status ms status)
                     (last_start ms (now w) started) current total isDone])
            w)).
Proof.
  induction ms as [| m ms IH];
    intros l id kind status started current total isDone name span w H.
  - simpl. unfold ret. destruct w; simpl in *; now subst.
  - destruct m as [| s | until].
    + change (spinner_methods (SStart :: ms)
                (mkSpinnerTracker name span (length l) started) w)
        with (spinner_methods ms
                (mkSpinnerTracker name span (length l) (Some (now w)))
                (set_activities
                   (alter (apply_partial (PStartTime (now w))) (length l)
                      (activities w)) w)).
      rewrite H, alter_last. now erewrite IH by reflexivity.
    + change (spinner_methods (SSetStatus s :: ms)
                (mkSpinnerTracker name span (length l) started) w)
        with (spinner_methods ms
                (mkSpinnerTracker name span (length l) started)
                (set_activities
                   (alter (apply_partial (PStatus s)) (length l)
                      (activities w)) w)).
      rewrite H, alter_last. now erewrite IH by reflexivity.
    + change (spinner_methods (SWait until :: ms)
                (mkSpinnerTracker name span (length l) started) w)
        with (spinner_methods ms
                (mkSpinnerTracker name span (length l) started)
                (set_now until w)).
      now rewrite (IH l id kind status started current total isDone name span
                     (set_now until w) H).
Qed.

(** X7: a spinner from [activityTimer] to [end()], with any sequence of
    [start] and [setStatus] in between and the clock moving, [start] having
    been called at least once: [end()] emits exactly one ACTIVITY_DURATION
    metric, and its duration is measured from the last [start()], not from
    the first (it is the elapsed time since then to the nearest millisecond
    for valid readings of a clock that did not go back, at most [2^52]
    nanoseconds apart); the backend's activity is done and shows that last
    start time and the last status; the span is finished once. *)
Theorem spinner_lifecycle (name : string) (parentSpan : option nat)
  (ms : list spinner_method) (w : world) (started : hrtime)
  (Hstarted : last_start ms (now w) None = Some started) :
  (t <- activityTimer name parentSpan ;;
   t <- spinner_methods ms t ;;
   spinner_end t) w
  = (Ret tt,
     mkWorld (spinner_clock ms (now w)) (command w) (uptime_ms w)
       (colorless w)
       (activities w
        ++ [mkActivity name spinner (last_spinner_status ms (Some ""))
              (Some started) None None true])
       (spans w ++ [mkSpan name parentSpan 1])
       (trace w
        ++ [TrackCli "ACTIVITY_DURATION" name
              (end_duration started (spinner_clock ms (now w)))]))
  /\ (measurable started (spinner_clock ms (now w)) ->
      end_duration started (spinner_clock ms (now w))
      = (elapsed_nanoseconds started (spinner_clock ms (now w)) + 500000)
        / 1000000).
Proof.
  split; [| exact (duration_exact _ _)].
  unfold bind at 1. unfold activityTimer at 1.
  cbv [bind tracer_startSpan reporterInstance_createActivity ret].
  cbn [spans activities set_spans set_activities].
  erewrite spinner_methods_run by reflexivity.
  cbn [now set_spans set_activities]. rewrite Hstarted.
  cbv [spinner_end bind process_hrtime gets ret trackCli span_finish
       activity_done modify sp_span sp_activity sp_name sp_startTime emit
       set_now set_activities set_spans now command uptime_ms colorless
       activities spans trace end_duration].
  rewrite !alter_last. reflexivity.
Qed.

Lemma spinner_lifecycle_witness :
  (t <- activityTimer "x" None ;;
   t <- spinner_methods [SStart; SWait (4, 0); SStart; SWait (6, 0)] t ;;
   spinner_end t) (fresh None)
  = (Ret tt,
     mkWorld (6, 0) None "0.000" false
       [mkActivity "x" spinner (Some "") (Some (4, 0)) None None true]
       [mkSpan "x" None 1]
       [TrackCli "ACTIVITY_DURATION" "x" 2000]).
Proof.
  destruct (spinner_lifecycle "x" None
              [SStart; SWait (4, 0); SStart; SWait (6, 0)]
              (fresh None) (4, 0) eq_refl) as [Hrun Hduration].
  rewrite Hrun, Hduration; [reflexivity |].
  unfold measurable, valid_reading, elapsed_nanoseconds. simpl. lia.
Defined.

(** ** The duration a spinner reports *)

(** X8: [start()] at one moment and [end()] at another, the clock not
    having gone back and at most [2^52] nanoseconds having passed, emit a
    duration that is the elapsed time to the nearest millisecond: it differs
    from the elapsed nanoseconds by at most half a millisecond, is never
    negative, and is [0] for anything shorter than half a millisecond. *)
Theorem spinner_duration_is_nearest_millisecond (t : SpinnerTracker)
  (w w2 : world) (Hclock : measurable (now w) (now w2)) :
  exists t1 w1 w3 d,
    spinner_start t w = (Ret t1, w1)
    /\ spinner_end t1 w2 = (Ret tt, w3)
    /\ trace w3 = trace w2 ++ [TrackCli "ACTIVITY_DURATION" (sp_name t) d]
    /\ d = (elapsed_nanoseconds (now w) (now w2) + 500000) / 1000000
    /\ elapsed_nanoseconds (now w) (now w2) - 500000 < d * 1000000
       <= elapsed_nanoseconds (now w) (now w2) + 500000
    /\ 0 <= d
    /\ (elapsed_nanoseconds (now w) (now w2) < 500000 -> d = 0).
Proof.
  pose proof (duration_exact _ _ Hclock) as Hduration.
  pose proof (rounded_milliseconds_near (now w) (now w2)) as Hnear.
  destruct Hclock as (_ & _ & Helapsed).
  exists (mkSpinnerTracker (sp_name t) (sp_span t) (sp_activity t)
            (Some (now w))).
  exists (set_activities
            (alter (apply_partial (PStartTime (now w))) (sp_activity t)
               (activities w)) w).
  exists (set_activities
            (alter mark_done (sp_activity t) (activities w2))
            (set_spans (alter finish_span (sp_span t) (spans w2))
               (emit (TrackCli "ACTIVITY_DURATION" (sp_name t)
                        (end_duration (now w) (now w2))) w2))).
  exists (end_duration (now w) (now w2)).
  split; [reflexivity |].
  split; [unfold end_duration; reflexivity |].
  split; [reflexivity |].
  rewrite Hduration. unfold rounded_milliseconds in *.
  split; [reflexivity |]. split; [exact Hnear |]. split.
  - apply Z.div_pos; lia.
  - intros Hshort. apply Z.div_small. lia.
Qed.

Lemma spinner_duration_is_nearest_millisecond_witness :
  exists t1 w1 w3,
    spinner_start (mkSpinnerTracker "x" 0 0 None) (fresh None) = (Ret t1, w1)
    /\ spinner_end t1 (set_now (0, 1500000) w1) = (Ret tt, w3)
    /\ trace w3 = [TrackCli "ACTIVITY_DURATION" "x" 2].
Proof.
  destruct (spinner_duration_is_nearest_millisecond
              (mkSpinnerTracker "x" 0 0 None) (fresh None)
              (set_now (0, 1500000)
                 (spinner_start (mkSpinnerTracker "x" 0 0 None)
                    (fresh None)).2))
    as (t1 & w1 & w3 & d & E1 & E2 & Htrace & Hd & _).
  { unfold measurable, valid_reading, elapsed_nanoseconds. simpl. lia. }
  exists t1, w1, w3.
  assert (Hw1 : w1 = (spinner_start (mkSpinnerTracker "x" 0 0 None)
                        (fresh None)).2) by now rewrite E1.
  rewrite Hw1. split; [now rewrite E1 |]. split; [exact E2 |].
  rewrite Htrace, Hd. reflexivity.
Defined.

(** ** [end] and [done] are not guarded *)

(** X9: unlike [start()] of a progress tracker, [end()] and [done()] have
    no guard.  A second [end()] on a started spinner emits a second metric
    (each the elapsed time since [start()] to the nearest millisecond, for
    valid readings of a clock that did not go back, at most [2^52]
    nanoseconds apart) and finishes the span a second time; a second
    [done()] on a progress tracker finishes the span a second time, again
    without any telemetry. *)
Theorem end_and_done_repeat (name : string) (span activity : nat)
  (started : hrtime) (hasStarted : bool) (current total : Z) (w : world)
  (s : Span) (Hspan : spans w !! span = Some s) :
  (exists w',
      (spinner_end (mkSpinnerTracker name span activity (Some started)) ;;
       spinner_end (mkSpinnerTracker name span activity (Some started))) w
      = (Ret tt, w')
      /\ trace w'
         = trace w
           ++ [TrackCli "ACTIVITY_DURATION" name
                 (end_duration started (now w));
               TrackCli "ACTIVITY_DURATION" name
                 (end_duration started (now w))]
      /\ (measurable started (now w) ->
          end_duration started (now w)
          = (elapsed_nanoseconds started (now w) + 500000) / 1000000)
      /\ spans w' !! span
         = Some (mkSpan (span_name s) (span_childOf s)
                   (S (S (span_finished s)))))
  /\ (exists w',
         (progress_done
            (mkProgressTracker span activity hasStarted current total) ;;
          progress_done
            (mkProgressTracker span activity hasStarted current total)) w
         = (Ret tt, w')
         /\ trace w' = trace w
         /\ spans w' !! span
            = Some (mkSpan (span_name s) (span_childOf s)
                      (S (S (span_finished s))))).
Proof.
  split; eexists; (split; [reflexivity |]);
    cbn [snd trace spans activities now emit set_spans set_activities sp_name
         sp_span sp_activity pr_span pr_activity].
  - split; [unfold end_duration; now rewrite <- app_assoc |].
    split; [exact (duration_exact _ _) |].
    rewrite !list_lookup_alter_eq, Hspan. reflexivity.
  - split; [reflexivity |].
    rewrite !list_lookup_alter_eq, Hspan. reflexivity.
Qed.

Lemma end_and_done_repeat_witness :
  (exists w',
      (spinner_end (mkSpinnerTracker "x" 0 0 (Some (1, 0))) ;;
       spinner_end (mkSpinnerTracker "x" 0 0 (Some (1, 0))))
        (mkWorld (3, 0) None "0.000" false
           [mkActivity "x" spinner (Some "") (Some (1, 0)) None None false]
           [mkSpan "x" None 0] [])
      = (Ret tt, w')
      /\ trace w'
         = [TrackCli "ACTIVITY_DURATION" "x" 2000;
            TrackCli "ACTIVITY_DURATION" "x" 2000]
      /\ spans w' !! 0%nat = Some (mkSpan "x" None 2))
  /\ (exists w',
         (progress_done (mkProgressTracker 0 0 true 4 10) ;;
          progress_done (mkProgressTracker 0 0 true 4 10))
           (mkWorld (3, 0) None "0.000" false
              [mkActivity "x" spinner (Some "") (Some (1, 0)) None None false]
              [mkSpan "x" None 0] [])
         = (Ret tt, w')
         /\ trace w' = []
         /\ spans w' !! 0%nat = Some (mkSpan "x" None 2)).
Proof.
  destruct (end_and_done_repeat "x" 0 0 (1, 0) true 4 10
              (mkWorld (3, 0) None "0.000" false
                 [mkActivity "x" spinner (Some "") (Some (1, 0)) None None
                    false]
                 [mkSpan "x" None 0] [])
              (mkSpan "x" None 0) eq_refl)
    as [(w1 & E1 & T1 & D1 & S1) (w2 & E2 & T2 & S2)].
  split.
  - exists w1. split; [exact E1 |]. split; [| exact S1].
    rewrite T1, D1; [reflexivity |].
    unfold measurable, valid_reading, elapsed_nanoseconds. simpl. lia.
  - exists w2. split; [exact E2 |]. split; [exact T2 | exact S2].
Defined.

(** ** Which activities and spans a call touches *)



